(** * resolvconf: reading and selecting the resolver configuration file

    A shallow embedding of the Go package [resolvconf] (file
    [resolvconf.go] and its hashing companion) together with the parts of the
    Go standard library it calls: [strings], [net], [crypto/sha256],
    [encoding/hex], [sync.Once] and [ioutil.ReadFile].

    Conventions.
    - A Go [string] is a [string] of the Standard Library (a sequence of
      bytes), a [[]byte] is a [list byte]; [string(b)] is
      [string_of_list_byte b].
    - A Go [int] is a [Z] where the code computes with it (indices returned
      by [strings.Index], the numbers read by [net.dtoi]), and a [nat] where
      it only counts positions of a [range] loop.
    - A nil slice and an empty slice are both the empty list.
    - A pointer result that may be nil and an [error] are [option]s; a
      function returning [(value, error)] returns a pair, exactly as in Go,
      so that "value and error are exclusive" is a property to prove and not
      a consequence of the type. *)

From Stdlib Require Import ZArith Lia List Bool.
From Stdlib Require Import Strings.Ascii Strings.String Strings.Byte.
Import ListNotations.

Local Open Scope string_scope.
Local Open Scope Z_scope.

(** ** Bytes and characters *)

(** Numeric value of a character of a Go string. *)
Definition ord (c : ascii) : Z := Z.of_N (N_of_ascii c).

(** Numeric value of a byte. *)
Definition byte_val (b : byte) : Z := Z.of_N (Byte.to_N b).

(** Go's conversion [byte(n)] of an integer: the low eight bits. *)
Definition byte_of_Z (n : Z) : byte :=
  match Byte.of_N (Z.to_N (n mod 256)) with
  | Some b => b
  | None => x00
  end.

(** The line feed character, Go's ['\n']. *)
Definition LF : ascii := "010"%char.

(** ** Package [strings] *)

Module strings.

(** [s[n:]] for [n <= len(s)]. *)
Fixpoint drop (n : nat) (s : string) : string :=
  match n, s with
  | O, _ => s
  | S _, EmptyString => EmptyString
  | S n', String _ s' => drop n' s'
  end.

(** [s[:n]] for [n <= len(s)]. *)
Fixpoint take (n : nat) (s : string) : string :=
  match n, s with
  | O, _ => EmptyString
  | S _, EmptyString => EmptyString
  | S n', String c s' => String c (take n' s')
  end.

(** [func HasPrefix(s, prefix string) bool]:
    [len(s) >= len(prefix) && s[0:len(prefix)] == prefix]. *)
Definition HasPrefix (s prefix : string) : bool :=
  (String.length prefix <=? String.length s)%nat
  && String.eqb (take (String.length prefix) s) prefix.

(** [func TrimPrefix(s, prefix string) string]. *)
Definition TrimPrefix (s prefix : string) : string :=
  if HasPrefix s prefix then drop (String.length prefix) s else s.

(** [func Index(s, substr string) int]: the index of the first instance of
    [substr] in [s], or -1.  [indexFrom s substr i] searches the suffix [s]
    that starts at position [i] of the original string. *)
Fixpoint indexFrom (s substr : string) (i : Z) : Z :=
  if HasPrefix s substr then i
  else match s with
       | EmptyString => -1
       | String _ s' => indexFrom s' substr (i + 1)
       end.

Definition Index (s substr : string) : Z := indexFrom s substr 0.

(** The loop of [genSplit] for a non-empty separator:
    [m := Index(s, sep); if m < 0 break; a[i] = s[:m]; s = s[m+len(sep):]].
    There are at most [len(s)] separators in [s], which is the fuel
    [Split] gives. *)
Fixpoint genSplit (fuel : nat) (s sep : string) : list string :=
  match fuel with
  | O => [s]
  | S fuel' =>
      let m := Index s sep in
      if m <? 0 then [s]
      else take (Z.to_nat m) s
           :: genSplit fuel' (drop (Z.to_nat m + String.length sep) s) sep
  end.

(** [func Split(s, sep string) []string], for a non-empty separator (the
    package only splits on ["\n"]; Go's special case of the empty
    separator, which explodes [s] into UTF-8 sequences, is outside this
    model). *)
Definition Split (s sep : string) : list string :=
  genSplit (String.length s) s sep.

(** *** White space

    [TrimSpace] removes the leading and trailing white-space runes of the
    UTF-8 string, as defined by [unicode.IsSpace]:
    U+0009..U+000D, U+0020, U+0085, U+00A0, U+1680, U+2000..U+200A,
    U+2028, U+2029, U+202F, U+205F, U+3000.
    Each of them has one valid UTF-8 encoding, of one to three bytes, and a
    string starts (ends) with a white-space rune exactly when it starts
    (ends) with one of these encodings. *)

Definition asciiSpace (c : Z) : bool :=
  ((9 <=? c) && (c <=? 13)) || (c =? 32).

(** Two-byte encodings: U+0085 = C2 85, U+00A0 = C2 A0. *)
Definition space2 (c1 c2 : Z) : bool :=
  (c1 =? 0xC2) && ((c2 =? 0x85) || (c2 =? 0xA0)).

(** Three-byte encodings: U+1680 = E1 9A 80, U+2000..U+200A = E2 80 80..8A,
    U+2028 = E2 80 A8, U+2029 = E2 80 A9, U+202F = E2 80 AF,
    U+205F = E2 81 9F, U+3000 = E3 80 80. *)
Definition space3 (c1 c2 c3 : Z) : bool :=
  ((c1 =? 0xE1) && (c2 =? 0x9A) && (c3 =? 0x80))
  || ((c1 =? 0xE2) && (c2 =? 0x80)
      && (((0x80 <=? c3) && (c3 <=? 0x8A))
          || (c3 =? 0xA8) || (c3 =? 0xA9) || (c3 =? 0xAF)))
  || ((c1 =? 0xE2) && (c2 =? 0x81) && (c3 =? 0x9F))
  || ((c1 =? 0xE3) && (c2 =? 0x80) && (c3 =? 0x80)).

(** Width in bytes of the white-space rune [s] starts with, 0 if it starts
    with none. *)
Definition leadingSpace (s : string) : nat :=
  match s with
  | String c1 t1 =>
      if asciiSpace (ord c1) then 1%nat
      else match t1 with
           | String c2 t2 =>
               if space2 (ord c1) (ord c2) then 2%nat
               else match t2 with
                    | String c3 _ =>
                        if space3 (ord c1) (ord c2) (ord c3) then 3%nat
                        else 0%nat
                    | EmptyString => 0%nat
                    end
           | EmptyString => 0%nat
           end
  | EmptyString => 0%nat
  end.

(** Width in bytes of the white-space rune a string ends with, given the
    string reversed. *)
Definition trailingSpace (r : string) : nat :=
  match r with
  | String c1 t1 =>
      if asciiSpace (ord c1) then 1%nat
      else match t1 with
           | String c2 t2 =>
               if space2 (ord c2) (ord c1) then 2%nat
               else match t2 with
                    | String c3 _ =>
                        if space3 (ord c3) (ord c2) (ord c1) then 3%nat
                        else 0%nat
                    | EmptyString => 0%nat
                    end
           | EmptyString => 0%nat
           end
  | EmptyString => 0%nat
  end.

(** Reversal of a string, with an accumulator. *)
Fixpoint rev_append (s acc : string) : string :=
  match s with
  | EmptyString => acc
  | String c s' => rev_append s' (String c acc)
  end.

Definition rev (s : string) : string := rev_append s EmptyString.

(** Drop white-space runes while [width] finds one; a string of [n] bytes
    holds at most [n] runes. *)
Fixpoint trimWhile (width : string -> nat) (fuel : nat) (s : string)
  : string :=
  match fuel with
  | O => s
  | S fuel' =>
      match width s with
      | O => s
      | S w => trimWhile width fuel' (drop (S w) s)
      end
  end.

Definition TrimLeftSpace (s : string) : string :=
  trimWhile leadingSpace (String.length s) s.

Definition TrimRightSpace (s : string) : string :=
  rev (trimWhile trailingSpace (String.length s) (rev s)).

(** [func TrimSpace(s string) string]. *)
Definition TrimSpace (s : string) : string :=
  TrimRightSpace (TrimLeftSpace s).

End strings.

(** ** Package [net]: IP addresses and their textual form *)

Module net.

(** [type IP []byte]; [ParseIP] returns the 16-byte form or nil. *)
Definition IP : Type := list byte.

Definition IPv4len : nat := 4.
Definition IPv6len : nat := 16.

(** Bigger than we need, not too big to worry about overflow. *)
Definition big : Z := 0xFFFFFF.

Definition isDigit (c : ascii) : bool := (48 <=? ord c) && (ord c <=? 57).

(** [dtoi]: decimal to integer.  Returns the number, the count of
    characters consumed and success.  [dtoi_loop] is the [for] loop, with
    the string still to read, [n] and [i]. *)
Fixpoint dtoi_loop (s : string) (n : Z) (i : nat) : Z * nat * bool :=
  match s with
  | String c s' =>
      if isDigit c then
        let n' := n * 10 + (ord c - 48) in
        if n' >=? big then (big, i, false) else dtoi_loop s' n' (S i)
      else if (i =? 0)%nat then (0, 0%nat, false) else (n, i, true)
  | EmptyString =>
      if (i =? 0)%nat then (0, 0%nat, false) else (n, i, true)
  end.

Definition dtoi (s : string) : Z * nat * bool := dtoi_loop s 0 0%nat.

(** Value of a hexadecimal digit, if it is one. *)
Definition hexDigit (c : ascii) : option Z :=
  let v := ord c in
  if (48 <=? v) && (v <=? 57) then Some (v - 48)
  else if (97 <=? v) && (v <=? 102) then Some (v - 97 + 10)
  else if (65 <=? v) && (v <=? 70) then Some (v - 65 + 10)
  else None.

(** [xtoi]: hexadecimal to integer, same results as [dtoi]. *)
Fixpoint xtoi_loop (s : string) (n : Z) (i : nat) : Z * nat * bool :=
  match s with
  | String c s' =>
      match hexDigit c with
      | Some d =>
          let n' := n * 16 + d in
          if n' >=? big then (0, i, false) else xtoi_loop s' n' (S i)
      | None => if (i =? 0)%nat then (0, i, false) else (n, i, true)
      end
  | EmptyString => if (i =? 0)%nat then (0, i, false) else (n, i, true)
  end.

Definition xtoi (s : string) : Z * nat * bool := xtoi_loop s 0 0%nat.

Definition v4InV6Prefix : list byte :=
  [x00; x00; x00; x00; x00; x00; x00; x00; x00; x00; xff; xff].

(** [func IPv4(a, b, c, d byte) IP]: the 16-byte form of a.b.c.d. *)
Definition IPv4 (a b c d : byte) : IP :=
  (v4InV6Prefix ++ [a; b; c; d])%list.

Definition headIs (s : string) (c : ascii) : bool :=
  match s with
  | String c0 _ => Ascii.eqb c0 c
  | EmptyString => false
  end.

(** The loop of [parseIPv4]: [k] fields are still to read, [first] tells
    the first one ([i == 0]), [p] holds the bytes read so far.  Returns the
    four bytes and what is left of the string, or [None] for nil. *)
Fixpoint parseIPv4_loop (k : nat) (first : bool) (s : string)
  (p : list byte) : option (list byte * string) :=
  match k with
  | O => Some (p, s)
  | S k' =>
      if (String.length s =? 0)%nat then None (* missing octets *)
      else
        let sep_ok := first || headIs s "." in
        let s1 := if first then s else strings.drop 1 s in
        if negb sep_ok then None
        else
          let '(n, c, ok) := dtoi s1 in
          if negb ok || (n >? 0xFF) then None
          else if (1 <? c)%nat && headIs s1 "0" then None
               (* reject non-zero components with leading zeroes *)
          else parseIPv4_loop k' false (strings.drop c s1)
                 (p ++ [byte_of_Z n])%list
  end.

(** [func parseIPv4(s string) IP]. *)
Definition parseIPv4 (s : string) : option IP :=
  match parseIPv4_loop IPv4len true s [] with
  | Some ([a; b; c; d], EmptyString) => Some (IPv4 a b c d)
  | _ => None
  end.

(** [ip[i] = b] on the 16-byte array. *)
Fixpoint set (ip : list byte) (i : nat) (b : byte) : list byte :=
  match ip, i with
  | [], _ => []
  | _ :: t, O => b :: t
  | h :: t, S i' => h :: set t i' b
  end.

Definition at_ (ip : list byte) (i : nat) : byte := nth i ip x00.

(** State of the loop of [parseIPv6]. *)
Record v6state := {
  v6_ip : list byte;     (* the address being filled *)
  v6_i : nat;            (* next byte to write *)
  v6_ellipsis : Z;       (* position of the ellipsis in ip, -1 for none *)
  v6_s : string          (* what is left to read *)
}.

(** One run of the body of [for i < IPv6len]: [inl None] is [return nil],
    [inl (Some st)] is [break], [inr st] goes round again. *)
Definition parseIPv6_body (st : v6state)
  : option v6state + v6state :=
  let s := v6_s st in
  let i := v6_i st in
  let ip := v6_ip st in
  let '(n, c, ok) := xtoi s in
  if negb ok || (n >? 0xFFFF) then inl None
  else if (c <? String.length s)%nat && headIs (strings.drop c s) "." then
    (* followed by dot: might be in trailing IPv4 *)
    if (v6_ellipsis st <? 0) && negb (i =? IPv6len - IPv4len)%nat
    then inl None
    else if (IPv6len <? i + IPv4len)%nat then inl None
    else match parseIPv4 s with
         | None => inl None
         | Some ip4 =>
             let ip := set ip i (at_ ip4 12) in
             let ip := set ip (i + 1) (at_ ip4 13) in
             let ip := set ip (i + 2) (at_ ip4 14) in
             let ip := set ip (i + 3) (at_ ip4 15) in
             inl (Some {| v6_ip := ip; v6_i := (i + IPv4len)%nat;
                          v6_ellipsis := v6_ellipsis st; v6_s := "" |})
         end
  else
    (* save this 16-bit chunk *)
    let ip := set ip i (byte_of_Z (Z.shiftr n 8)) in
    let ip := set ip (i + 1) (byte_of_Z n) in
    let i := (i + 2)%nat in
    let s := strings.drop c s in
    let st1 := {| v6_ip := ip; v6_i := i;
                  v6_ellipsis := v6_ellipsis st; v6_s := s |} in
    if (String.length s =? 0)%nat then inl (Some st1) (* end of string *)
    else if negb (headIs s ":") || (String.length s =? 1)%nat then inl None
    else
      let s := strings.drop 1 s in
      if headIs s ":" then
        (* look for ellipsis *)
        if v6_ellipsis st >=? 0 then inl None (* already have one *)
        else
          let s := strings.drop 1 s in
          let st2 := {| v6_ip := ip; v6_i := i;
                        v6_ellipsis := Z.of_nat i; v6_s := s |} in
          if (String.length s =? 0)%nat then inl (Some st2) else inr st2
      else inr {| v6_ip := ip; v6_i := i;
                  v6_ellipsis := v6_ellipsis st; v6_s := s |}.

(** The loop [for i < IPv6len]; every round writes two bytes, so eight
    rounds are enough fuel.  [None] is [return nil]. *)
Fixpoint parseIPv6_loop (fuel : nat) (st : v6state) : option v6state :=
  match fuel with
  | O => Some st
  | S fuel' =>
      if (v6_i st <? IPv6len)%nat then
        match parseIPv6_body st with
        | inl r => r
        | inr st' => parseIPv6_loop fuel' st'
        end
      else Some st
  end.

(** [for j := i - 1; j >= ellipsis; j-- { ip[j+n] = ip[j] }], with [cnt]
    values of [j] still to visit, from [j] downwards. *)
Fixpoint shiftRight (cnt : nat) (j : nat) (n : nat) (ip : list byte)
  : list byte :=
  match cnt with
  | O => ip
  | S cnt' => shiftRight cnt' (j - 1) n (set ip (j + n) (at_ ip j))
  end.

(** [for j := ellipsis + n - 1; j >= ellipsis; j-- { ip[j] = 0 }]. *)
Fixpoint zeroFill (cnt : nat) (j : nat) (ip : list byte) : list byte :=
  match cnt with
  | O => ip
  | S cnt' => zeroFill cnt' (j - 1) (set ip j x00)
  end.

(** [func parseIPv6(s string) (ip IP)]. *)
Definition parseIPv6 (s : string) : option IP :=
  let ip0 := repeat x00 IPv6len in
  let lead := (2 <=? String.length s)%nat && headIs s ":"
              && headIs (strings.drop 1 s) ":" in
  let ellipsis0 := if lead then 0 else -1 in
  let s0 := if lead then strings.drop 2 s else s in
  if lead && (String.length s0 =? 0)%nat then Some ip0 (* only ellipsis *)
  else
    match parseIPv6_loop 8 {| v6_ip := ip0; v6_i := 0;
                              v6_ellipsis := ellipsis0; v6_s := s0 |} with
    | None => None
    | Some st =>
        if negb (String.length (v6_s st) =? 0)%nat then None
        else if (v6_i st <? IPv6len)%nat then
          (* did not parse enough: expand the ellipsis *)
          if v6_ellipsis st <? 0 then None
          else
            let e := Z.to_nat (v6_ellipsis st) in
            let i := v6_i st in
            let n := (IPv6len - i)%nat in
            let ip := shiftRight (i - e) (i - 1) n (v6_ip st) in
            Some (zeroFill n (e + n - 1) ip)
        else if v6_ellipsis st >=? 0 then None
             (* the ellipsis must stand for at least one zero group *)
        else Some (v6_ip st)
    end.

(** First of ['.'] and [':'] in the string decides the family:
    [for i := 0; i < len(s); i++ { switch s[i] { case '.': return
    parseIPv4(s); case ':': return parseIPv6(s) } }; return nil]. *)
Fixpoint family (s : string) : option bool :=
  match s with
  | EmptyString => None
  | String c s' =>
      if Ascii.eqb c "." then Some true
      else if Ascii.eqb c ":" then Some false
      else family s'
  end.

(** [func ParseIP(s string) IP]. *)
Definition ParseIP (s : string) : option IP :=
  match family s with
  | Some true => parseIPv4 s
  | Some false => parseIPv6 s
  | None => None
  end.

Definition isZeros (p : list byte) : bool :=
  forallb (fun b => byte_val b =? 0) p.

(** [func (ip IP) To4() IP]; [None] is nil. *)
Definition To4 (ip : IP) : option IP :=
  if (List.length ip =? IPv4len)%nat then Some ip
  else if (List.length ip =? IPv6len)%nat
          && isZeros (firstn 10 ip)
          && (byte_val (at_ ip 10) =? 0xff)
          && (byte_val (at_ ip 11) =? 0xff)
  then Some (firstn 4 (skipn 12 ip))
  else None.

Definition IPv6loopback : IP :=
  [x00; x00; x00; x00; x00; x00; x00; x00;
   x00; x00; x00; x00; x00; x00; x00; x01].

Fixpoint bytesEqual (a b : list byte) : bool :=
  match a, b with
  | [], [] => true
  | x :: a', y :: b' => Byte.eqb x y && bytesEqual a' b'
  | _, _ => false
  end.

(** [func (ip IP) Equal(x IP) bool]: an IPv4 address and that same address
    in IPv6 form are considered to be equal. *)
Definition Equal (ip x : IP) : bool :=
  if (List.length ip =? List.length x)%nat then bytesEqual ip x
  else if (List.length ip =? IPv4len)%nat && (List.length x =? IPv6len)%nat
  then bytesEqual (firstn 12 x) v4InV6Prefix && bytesEqual ip (skipn 12 x)
  else if (List.length ip =? IPv6len)%nat && (List.length x =? IPv4len)%nat
  then bytesEqual (firstn 12 ip) v4InV6Prefix && bytesEqual (skipn 12 ip) x
  else false.

(** [func (ip IP) IsLoopback() bool]. *)
Definition IsLoopback (ip : IP) : bool :=
  match To4 ip with
  | Some ip4 => byte_val (at_ ip4 0) =? 127
  | None => Equal ip IPv6loopback
  end.

End net.

(** ** Package [crypto/sha256] *)

Module sha256.

(** A [uint32] is a [Z] in [0, 2^32); sums wrap around. *)
Definition mask32 : Z := 0xFFFFFFFF.
Definition u32 (x : Z) : Z := Z.land x mask32.
Definition add32 (x y : Z) : Z := u32 (x + y).

(** [bits.RotateLeft32(x, -n)], a rotation to the right by [n] bits. *)
Definition rotr (x n : Z) : Z :=
  Z.lor (Z.shiftr x n) (u32 (Z.shiftl x (32 - n))).

(** [^x] on 32 bits. *)
Definition not32 (x : Z) : Z := Z.lxor x mask32.

Definition xor3 (a b c : Z) : Z := Z.lxor (Z.lxor a b) c.

Definition _K : list Z :=
  [ 0x428A2F98; 0x71374491; 0xB5C0FBCF; 0xE9B5DBA5;
    0x3956C25B; 0x59F111F1; 0x923F82A4; 0xAB1C5ED5;
    0xD807AA98; 0x12835B01; 0x243185BE; 0x550C7DC3;
    0x72BE5D74; 0x80DEB1FE; 0x9BDC06A7; 0xC19BF174;
    0xE49B69C1; 0xEFBE4786; 0x0FC19DC6; 0x240CA1CC;
    0x2DE92C6F; 0x4A7484AA; 0x5CB0A9DC; 0x76F988DA;
    0x983E5152; 0xA831C66D; 0xB00327C8; 0xBF597FC7;
    0xC6E00BF3; 0xD5A79147; 0x06CA6351; 0x14292967;
    0x27B70A85; 0x2E1B2138; 0x4D2C6DFC; 0x53380D13;
    0x650A7354; 0x766A0ABB; 0x81C2C92E; 0x92722C85;
    0xA2BFE8A1; 0xA81A664B; 0xC24B8B70; 0xC76C51A3;
    0xD192E819; 0xD6990624; 0xF40E3585; 0x106AA070;
    0x19A4C116; 0x1E376C08; 0x2748774C; 0x34B0BCB5;
    0x391C0CB3; 0x4ED8AA4A; 0x5B9CCA4F; 0x682E6FF3;
    0x748F82EE; 0x78A5636F; 0x84C87814; 0x8CC70208;
    0x90BEFFFA; 0xA4506CEB; 0xBEF9A3F7; 0xC67178F2 ].

(** The eight words [h[0..7]] of a digest. *)
Record state := {
  h0 : Z; h1 : Z; h2 : Z; h3 : Z; h4 : Z; h5 : Z; h6 : Z; h7 : Z
}.

Definition init : state :=
  {| h0 := 0x6A09E667; h1 := 0xBB67AE85; h2 := 0x3C6EF372;
     h3 := 0xA54FF53A; h4 := 0x510E527F; h5 := 0x9B05688C;
     h6 := 0x1F83D9AB; h7 := 0x5BE0CD19 |}.

(** [w[i] = uint32(p[j])<<24 | uint32(p[j+1])<<16 | uint32(p[j+2])<<8 |
    uint32(p[j+3])] for the sixteen words of a 64-byte chunk. *)
Fixpoint words (n : nat) (p : list byte) : list Z :=
  match n, p with
  | S n', a :: b :: c :: d :: p' =>
      Z.lor (Z.lor (Z.lor (Z.shiftl (byte_val a) 24)
                          (Z.shiftl (byte_val b) 16))
                   (Z.shiftl (byte_val c) 8))
            (byte_val d)
      :: words n' p'
  | _, _ => []
  end.

Definition wat (w : list Z) (i : nat) : Z := nth i w 0.

(** [for i := 16; i < 64; i++]: extends the schedule [w] (of length [i])
    by [cnt] words. *)
Fixpoint schedule (cnt : nat) (i : nat) (w : list Z) : list Z :=
  match cnt with
  | O => w
  | S cnt' =>
      let v1 := wat w (i - 2) in
      let t1 := xor3 (rotr v1 17) (rotr v1 19) (Z.shiftr v1 10) in
      let v2 := wat w (i - 15) in
      let t2 := xor3 (rotr v2 7) (rotr v2 18) (Z.shiftr v2 3) in
      let wi := add32 (add32 (add32 t1 (wat w (i - 7))) t2)
                      (wat w (i - 16)) in
      schedule cnt' (S i) (w ++ [wi])%list
  end.

(** One round of the compression loop on the working variables
    [a .. h], kept in a [state]. *)
Definition round (v : state) (k w : Z) : state :=
  let a := h0 v in let b := h1 v in let c := h2 v in let d := h3 v in
  let e := h4 v in let f := h5 v in let g := h6 v in let h := h7 v in
  let t1 := add32 (add32 (add32 (add32 h
               (xor3 (rotr e 6) (rotr e 11) (rotr e 25)))
               (Z.lxor (Z.land e f) (Z.land (not32 e) g))) k) w in
  let t2 := add32 (xor3 (rotr a 2) (rotr a 13) (rotr a 22))
                  (xor3 (Z.land a b) (Z.land a c) (Z.land b c)) in
  {| h0 := add32 t1 t2; h1 := a; h2 := b; h3 := c;
     h4 := add32 d t1; h5 := e; h6 := f; h7 := g |}.

Fixpoint rounds (v : state) (ks ws : list Z) : state :=
  match ks, ws with
  | k :: ks', w :: ws' => rounds (round v k w) ks' ws'
  | _, _ => v
  end.

(** The body of [blockGeneric] for one 64-byte chunk [p]. *)
Definition block (dig : state) (p : list byte) : state :=
  let w := schedule 48 16 (words 16 p) in
  let v := rounds dig _K w in
  {| h0 := add32 (h0 dig) (h0 v); h1 := add32 (h1 dig) (h1 v);
     h2 := add32 (h2 dig) (h2 v); h3 := add32 (h3 dig) (h3 v);
     h4 := add32 (h4 dig) (h4 v); h5 := add32 (h5 dig) (h5 v);
     h6 := add32 (h6 dig) (h6 v); h7 := add32 (h7 dig) (h7 v) |}.

(** [for len(p) >= chunk { ...; p = p[chunk:] }], [n] chunks. *)
Fixpoint blocks (n : nat) (dig : state) (p : list byte) : state :=
  match n with
  | O => dig
  | S n' => blocks n' (block dig (firstn 64 p)) (skipn 64 p)
  end.

(** [binary.BigEndian.PutUint32] and [PutUint64]. *)
Definition be32 (x : Z) : list byte :=
  [byte_of_Z (Z.shiftr x 24); byte_of_Z (Z.shiftr x 16);
   byte_of_Z (Z.shiftr x 8); byte_of_Z x].

Definition be64 (x : Z) : list byte :=
  (be32 (Z.shiftr x 32) ++ be32 x)%list.

(** Padding of [checkSum]: a byte 0x80, zeros up to 56 mod 64, then the
    length in bits on eight bytes. *)
Definition padding (len : nat) : list byte :=
  let r := (len mod 64)%nat in
  let zeros := if (r <? 56)%nat then (55 - r)%nat else (119 - r)%nat in
  (x80 :: repeat x00 zeros
     ++ be64 (Z.land (Z.shiftl (Z.of_nat len) 3) 0xFFFFFFFFFFFFFFFF))%list.

(** [func Sum256(data []byte) [Size]byte], which is also what [New],
    [Write] of all the data and [Sum(nil)] return. *)
Definition Sum256 (data : list byte) : list byte :=
  let p := (data ++ padding (List.length data))%list in
  let d := blocks (List.length p / 64) init p in
  (be32 (h0 d) ++ be32 (h1 d) ++ be32 (h2 d) ++ be32 (h3 d)
   ++ be32 (h4 d) ++ be32 (h5 d) ++ be32 (h6 d) ++ be32 (h7 d))%list.

End sha256.

(** ** Package [encoding/hex] *)

Module hex.

Definition hextable : string := "0123456789abcdef".

Definition digit (v : Z) : ascii :=
  match String.get (Z.to_nat v) hextable with
  | Some c => c
  | None => "0"%char
  end.

(** [func EncodeToString(src []byte) string]:
    [dst[j] = hextable[v>>4]; dst[j+1] = hextable[v&0x0f]]. *)
Fixpoint EncodeToString (src : list byte) : string :=
  match src with
  | [] => EmptyString
  | v :: src' =>
      String (digit (Z.shiftr (byte_val v) 4))
        (String (digit (Z.land (byte_val v) 0x0f)) (EncodeToString src'))
  end.

End hex.

(** ** Errors, the file system and the process state *)

(** An argument of a format verb. *)
Inductive fmtArg : Type :=
| ArgInt (n : Z)
| ArgString (s : string).

(** Go's [error] values met by the package: an error of the operating system
    ([*os.PathError] and the like, from [ioutil.ReadFile] or from a reader),
    and the result of [fmt.Errorf(format, args...)], kept as the format with
    its arguments. *)
Inductive error : Type :=
| OSError (msg : string)
| Errorf (format : string) (args : list fmtArg).

(** What [ioutil.ReadFile] returns for every file name. *)
Definition FS : Type := string -> list byte * option error.

(** The world a call runs in: the files, the record of the calls of
    [ioutil.ReadFile] made so far, and the two package-level variables. *)
Record world : Type := {
  files : FS;
  filesRead : list string;
  detectSystemdResolvConfOnce : bool;   (* the done flag of the sync.Once *)
  pathAfterSystemdDetection : string
}.

(** Code with effects on the world. *)
Definition M (A : Type) : Type := world -> A * world.

Definition ret {A : Type} (a : A) : M A := fun w => (a, w).

Definition bind {A B : Type} (m : M A) (k : A -> M B) : M B :=
  fun w => let (a, w') := m w in k a w'.

Notation "x <- c ;; k" := (bind c (fun x => k))
  (at level 61, c at next level, right associativity).
Notation "' p <- c ;; k" := (bind c (fun p => k))
  (at level 61, p pattern, c at next level, right associativity).

Module ioutil.

(** [func ReadFile(filename string) ([]byte, error)]. *)
Definition ReadFile (filename : string) : M (list byte * option error) :=
  fun w =>
    (files w filename,
     {| files := files w;
        filesRead := (filesRead w ++ [filename])%list;
        detectSystemdResolvConfOnce := detectSystemdResolvConfOnce w;
        pathAfterSystemdDetection := pathAfterSystemdDetection w |}).

End ioutil.

Module io.

(** An [io.Reader], by what reading it to the end gives: the bytes it
    yields and the error that ends them, if it is not EOF. *)
Record Reader : Type := { yields : list byte; fails : option error }.

(** [func Copy(dst Writer, src Reader) (written int64, err error)] into a
    hash, whose [Write] never fails: the bytes written and the error. *)
Definition Copy (src : Reader) : list byte * option error :=
  (yields src, fails src).

End io.

Module bytes.

(** [func NewReader(b []byte) *Reader]: reads [b], then EOF. *)
Definition NewReader (b : list byte) : io.Reader :=
  {| io.yields := b; io.fails := None |}.

End bytes.

Module sync.

(** [func (o *Once) Do(f func())] for the package's only [Once], when no
    other call is running: [f] runs if the flag is not set, and the flag is
    set when [f] returns. *)
Definition Once_Do (f : M unit) : M unit :=
  fun w =>
    if detectSystemdResolvConfOnce w then (tt, w)
    else
      let (_, w') := f w in
      (tt, {| files := files w';
              filesRead := filesRead w';
              detectSystemdResolvConfOnce := true;
              pathAfterSystemdDetection := pathAfterSystemdDetection w' |}).

End sync.

(** ** Package [resolvconf] *)

(** defaultPath is the default path to the resolv.conf that contains
    information to resolve DNS. *)
Definition defaultPath : string := "/etc/resolv.conf".

(** alternatePath is a path different from defaultPath, that may be used to
    resolve DNS. *)
Definition alternatePath : string := "/run/systemd/resolve/resolv.conf".

Definition commentMark : string := "#".

Definition nameserverKey : string := "nameserver".

Definition optionKey : string := "option".

(** The initial value of the package-level variables, on some files. *)
Definition start (fs : FS) : world :=
  {| files := fs;
     filesRead := [];
     detectSystemdResolvConfOnce := false;
     pathAfterSystemdDetection := defaultPath |}.

(** [getLines] parses input into lines and strips away comments and
    spaces. *)
Definition getLines (input commentMarker : string) : list string :=
  let lines := strings.Split input (String LF EmptyString) in
  fold_left
    (fun output currentLine =>
       let commentIndex := strings.Index currentLine commentMarker in
       let line :=
         if negb (commentIndex =? -1)
         then strings.take (Z.to_nat commentIndex) currentLine
         else currentLine in
       (output ++ [strings.TrimSpace line])%list)
    lines [].

(** The loop of [getNameservers] over the lines left, [i] being the index of
    the first of them and [nameservers] the addresses found so far. *)
Fixpoint getNameservers_loop (i : nat) (lines : list string)
  (nameservers : list net.IP) : list net.IP * option error :=
  match lines with
  | [] => (nameservers, None)
  | line :: lines' =>
      if negb (strings.HasPrefix line nameserverKey)
      then getNameservers_loop (S i) lines' nameservers (* not nameserver *)
      else
        let line := strings.TrimSpace (strings.TrimPrefix line nameserverKey) in
        match net.ParseIP line with
        | None =>
            ([], Some (Errorf "line %v: invalid ip address of nameserver: %q"
                         [ArgInt (Z.of_nat i); ArgString line]))
        | Some ip =>
            getNameservers_loop (S i) lines' (nameservers ++ [ip])%list
        end
  end.

(** [getNameservers] returns nameservers (if any) listed in
    /etc/resolv.conf. *)
Definition getNameservers (resolvConf : string)
  : list net.IP * option error :=
  getNameservers_loop 0 (getLines resolvConf commentMark) [].

(** The body of the loop of [getOptions] for one line. *)
Definition getOptions_body (options : list string) (line : string)
  : list string :=
  if negb (strings.HasPrefix line optionKey)
  then options (* skip if not option *)
  else
    let line := strings.TrimSpace (strings.TrimPrefix line nameserverKey) in
    (options ++ [line])%list.

(** [getOptions] returns options (if any) listed in /etc/resolv.conf. *)
Definition getOptions (resolvConf : string) : list string :=
  fold_left getOptions_body (getLines resolvConf commentMark) [].

(** [hashData]: the SHA-256 of everything the reader yields. *)
Definition hashData (src : io.Reader) : string * option error :=
  let '(h, err) := io.Copy src in
  match err with
  | Some e => ("", Some e)
  | None => ("sha256:" ++ hex.EncodeToString (sha256.Sum256 h), None)
  end.

(** File contains the resolv.conf content and its hash. *)
Record File : Type := {
  Content : list byte;
  Hash : string;
  Nameservers : list net.IP;
  Options : list string
}.

(** [GetSpecific] returns the contents of the user specified resolv.conf
    file and its hash. *)
Definition GetSpecific (path : string) : M (option File * option error) :=
  '(resolv, err) <- ioutil.ReadFile path ;;
  match err with
  | Some e => ret (None, Some e)
  | None =>
      let '(hash, err) := hashData (bytes.NewReader resolv) in
      match err with
      | Some e => ret (None, Some e)
      | None =>
          let '(nameservers, err) :=
            getNameservers (string_of_list_byte resolv) in
          match err with
          | Some e => ret (None, Some e)
          | None =>
              let options := getOptions (string_of_list_byte resolv) in
              ret (Some {| Content := resolv;
                           Hash := hash;
                           Nameservers := nameservers;
                           Options := options |}, None)
          end
      end
  end.

(** The assignment [pathAfterSystemdDetection = p]. *)
Definition assignPath (p : string) : M unit :=
  fun w =>
    (tt, {| files := files w;
            filesRead := filesRead w;
            detectSystemdResolvConfOnce := detectSystemdResolvConfOnce w;
            pathAfterSystemdDetection := p |}).

(** What the function [Path] hands to [detectSystemdResolvConfOnce.Do] does
    once [ioutil.ReadFile(defaultPath)] has returned. *)
Definition detect_rest (r : list byte * option error) : M unit :=
  let '(candidateResolvConf, err) := r in
  match err with
  | Some _ => ret tt (* silencing error *)
  | None =>
      let '(ns, err) :=
        getNameservers (string_of_list_byte candidateResolvConf) in
      match err with
      | Some _ => ret tt (* same as ignoring error upper *)
      | None =>
          if (List.length ns =? 1)%nat && net.IsLoopback (nth 0 ns [])
          then assignPath alternatePath
          else ret tt
      end
  end.

(** The function [Path] hands to [detectSystemdResolvConfOnce.Do]. *)
Definition detect : M unit :=
  r <- ioutil.ReadFile defaultPath ;;
  detect_rest r.

(** [Path] returns the path to the resolv.conf file that libnetwork should
    use. *)
Definition Path : M string :=
  _ <- sync.Once_Do detect ;;
  fun w => (pathAfterSystemdDetection w, w).

(** [Get] returns the contents of /etc/resolv.conf and its hash. *)
Definition Get : M (option File * option error) :=
  path <- Path ;;
  GetSpecific path.

(** [n] calls of [Path] in a row; before each of them the environment may
    have replaced the files, [env k] being the files at the [k]-th call
    counted from [n] down. *)
Fixpoint PathTimes (n : nat) (env : nat -> FS) (w : world)
  : list string * world :=
  match n with
  | O => ([], w)
  | S n' =>
      let w0 := {| files := env n;
                   filesRead := filesRead w;
                   detectSystemdResolvConfOnce :=
                     detectSystemdResolvConfOnce w;
                   pathAfterSystemdDetection :=
                     pathAfterSystemdDetection w |} in
      let (p, w1) := Path w0 in
      let (ps, w2) := PathTimes n' env w1 in
      (p :: ps, w2)
  end.

(** ** Concurrent callers of [Path]

    Goroutines call [Path] over and over while the environment replaces
    files.  A goroutine runs [Path] in the atomic steps of [sync.Once]:

      func (o *Once) Do(f func()) {
        if o.done.Load() == 0 { o.doSlow(f) }
      }
      func (o *Once) doSlow(f func()) {
        o.m.Lock()
        defer o.m.Unlock()
        if o.done.Load() == 0 {
          defer o.done.Store(1)
          f()
        }
      }

    and a schedule tells which goroutine moves next. *)

Module Concurrent.

(** Where a goroutine stands. *)
Inductive pc : Type :=
| Idle                                     (* not in a call of Path *)
| AtDo                                     (* Do: about to load o.done *)
| AtLock                                   (* doSlow: at o.m.Lock() *)
| AtCheck                                  (* holds o.m, about to test o.done *)
| AtRead                                   (* f: at ioutil.ReadFile *)
| AtParse (r : list byte * option error)   (* f: ReadFile returned r *)
| AtStore                                  (* deferred o.done.Store(1) *)
| AtUnlock                                 (* deferred o.m.Unlock() *)
| AtReturn.                                (* return pathAfterSystemdDetection *)

Record state : Type := {
  st_world : world;
  st_mutex : option nat;        (* the goroutine that holds o.m *)
  st_pcs : nat -> pc;
  st_returned : list string     (* what the calls of Path returned so far *)
}.

Definition upd (f : nat -> pc) (t : nat) (p : pc) : nat -> pc :=
  fun u => if Nat.eqb u t then p else f u.

Definition setDone (w : world) : world :=
  {| files := files w;
     filesRead := filesRead w;
     detectSystemdResolvConfOnce := true;
     pathAfterSystemdDetection := pathAfterSystemdDetection w |}.

Definition setFiles (fs : FS) (w : world) : world :=
  {| files := fs;
     filesRead := filesRead w;
     detectSystemdResolvConfOnce := detectSystemdResolvConfOnce w;
     pathAfterSystemdDetection := pathAfterSystemdDetection w |}.

(** What happens next: goroutine [t] takes a step, or the environment
    replaces the files. *)
Inductive event : Type :=
| Run (t : nat)
| Env (fs : FS).

(** One step of goroutine [t]; a goroutine waiting for the mutex does not
    move. *)
Definition stepThread (t : nat) (s : state) : state :=
  let w := st_world s in
  let goto p := {| st_world := w; st_mutex := st_mutex s;
                   st_pcs := upd (st_pcs s) t p;
                   st_returned := st_returned s |} in
  match st_pcs s t with
  | Idle => goto AtDo
  | AtDo => if detectSystemdResolvConfOnce w then goto AtReturn
            else goto AtLock
  | AtLock =>
      match st_mutex s with
      | Some _ => s
      | None => {| st_world := w; st_mutex := Some t;
                   st_pcs := upd (st_pcs s) t AtCheck;
                   st_returned := st_returned s |}
      end
  | AtCheck => if detectSystemdResolvConfOnce w then goto AtUnlock
               else goto AtRead
  | AtRead =>
      let (r, w') := ioutil.ReadFile defaultPath w in
      {| st_world := w'; st_mutex := st_mutex s;
         st_pcs := upd (st_pcs s) t (AtParse r);
         st_returned := st_returned s |}
  | AtParse r =>
      {| st_world := snd (detect_rest r w); st_mutex := st_mutex s;
         st_pcs := upd (st_pcs s) t AtStore;
         st_returned := st_returned s |}
  | AtStore =>
      {| st_world := setDone w; st_mutex := st_mutex s;
         st_pcs := upd (st_pcs s) t AtUnlock;
         st_returned := st_returned s |}
  | AtUnlock =>
      {| st_world := w; st_mutex := None;
         st_pcs := upd (st_pcs s) t AtReturn;
         st_returned := st_returned s |}
  | AtReturn =>
      {| st_world := w; st_mutex := st_mutex s;
         st_pcs := upd (st_pcs s) t Idle;
         st_returned :=
           (st_returned s ++ [pathAfterSystemdDetection w])%list |}
  end.

Definition step (s : state) (e : event) : state :=
  match e with
  | Run t => stepThread t s
  | Env fs => {| st_world := setFiles fs (st_world s);
                 st_mutex := st_mutex s;
                 st_pcs := st_pcs s;
                 st_returned := st_returned s |}
  end.

(** The process after a schedule. *)
Definition run (s : state) (schedule : list event) : state :=
  fold_left step schedule s.

(** The process when it starts: nobody has called [Path]. *)
Definition initial (fs : FS) : state :=
  {| st_world := start fs; st_mutex := None;
     st_pcs := fun _ => Idle; st_returned := [] |}.

(** The package-level variables and the record of reads of a state. *)
Definition done (s : state) : bool :=
  detectSystemdResolvConfOnce (st_world s).

Definition path (s : state) : string :=
  pathAfterSystemdDetection (st_world s).

Definition reads (s : state) : list string := filesRead (st_world s).

(** Between [Lock] and [Unlock]. *)
Definition critical (p : pc) : bool :=
  match p with
  | AtCheck | AtRead | AtParse _ | AtStore | AtUnlock => true
  | _ => false
  end.

(** Inside [f], or about to store the flag after it. *)
Definition running (p : pc) : bool :=
  match p with
  | AtRead | AtParse _ | AtStore => true
  | _ => false
  end.

(** After the read of the file. *)
Definition computed (p : pc) : bool :=
  match p with
  | AtParse _ | AtStore => true
  | _ => false
  end.

(** After the [Once] has been seen or made done. *)
Definition past (p : pc) : bool :=
  match p with
  | AtUnlock | AtReturn => true
  | _ => false
  end.

(** What holds of every state the process reaches. *)
Record Inv (s : state) : Prop := {
  inv_mutex : forall t, critical (st_pcs s t) = true -> st_mutex s = Some t;
  inv_run : forall t, running (st_pcs s t) = true -> done s = false;
  inv_past : forall t, past (st_pcs s t) = true -> done s = true;
  inv_ret : forall p, In p (st_returned s) -> done s = true /\ p = path s;
  inv_fresh : done s = false ->
              (forall t, computed (st_pcs s t) = false) -> reads s = [];
  inv_reads : (List.length (reads s) <= 1)%nat
}.

End Concurrent.

(** ** The words of the specification, for the line parser

    Written from the description of the line parser, to be compared with
    [getLines]: the newline-separated lines of a text, and a line truncated
    at the first occurrence of the comment marker. *)

(** The newline-separated lines of [s], in order: a new line starts after
    every line feed, so a text with [n] line feeds has [n + 1] lines. *)
Fixpoint lines_of (s : string) : list string :=
  match s with
  | EmptyString => [EmptyString]
  | String c s' =>
      if Ascii.eqb c LF then EmptyString :: lines_of s'
      else match lines_of s' with
           | l :: ls => String c l :: ls
           | [] => [String c EmptyString]
           end
  end.

(** Number of line feeds of [s]. *)
Fixpoint count_LF (s : string) : nat :=
  match s with
  | EmptyString => O
  | String c s' => ((if Ascii.eqb c LF then 1 else 0) + count_LF s')%nat
  end.

(** [line] up to, and without, the first place where [marker] starts;
    the whole of [line] when [marker] starts nowhere in it. *)
Fixpoint truncate_at (marker line : string) : string :=
  if strings.HasPrefix line marker then EmptyString
  else match line with
       | EmptyString => EmptyString
       | String c line' => String c (truncate_at marker line')
       end.

(** [marker] starts at position [k] of [line]. *)
Definition occurs_at (marker line : string) (k : nat) : Prop :=
  strings.HasPrefix (strings.drop k line) marker = true.

(** The value of a nameserver line: the line without the keyword, trimmed. *)
Definition nameserver_value (line : string) : string :=
  strings.TrimSpace (strings.TrimPrefix line nameserverKey).

(** A line recognized as a nameserver entry whose value is not an IP
    address literal. *)
Definition invalid_entry (line : string) : Prop :=
  strings.HasPrefix line nameserverKey = true
  /\ net.ParseIP (nameserver_value line) = None.

(** The error [getNameservers] reports for line [i] with value [v]. *)
Definition parse_error (i : nat) (v : string) : error :=
  Errorf "line %v: invalid ip address of nameserver: %q"
    [ArgInt (Z.of_nat i); ArgString v].

(** The hash string of raw bytes. *)
Definition hash_of (raw : list byte) : string :=
  "sha256:" ++ hex.EncodeToString (sha256.Sum256 raw).

(** A character of the lower-case hexadecimal alphabet. *)
Definition lower_hex (c : ascii) : bool :=
  ((48 <=? ord c) && (ord c <=? 57)) || ((97 <=? ord c) && (ord c <=? 102)).

(** Every character of a string satisfies [p]. *)
Fixpoint all_chars (p : ascii -> bool) (s : string) : bool :=
  match s with
  | EmptyString => true
  | String c s' => p c && all_chars p s'
  end.

(** A file system with one readable file. *)
Definition one_file (name content : string) : FS :=
  fun p =>
    if String.eqb p name then (list_byte_of_string content, None)
    else ([], Some (OSError "no such file or directory")).

(** A file system with no file at all. *)
Definition no_file : FS :=
  fun _ => ([], Some (OSError "no such file or directory")).

(** The default file names exactly one nameserver, a loopback address:
    the file is readable, its nameserver entries parse, and they are one
    loopback address. *)
Definition loopback_only (r : list byte * option error) : bool :=
  match r with
  | (content, None) =>
      match getNameservers (string_of_list_byte content) with
      | ([ip], None) => net.IsLoopback ip
      | _ => false
      end
  | (_, Some _) => false
  end.

(** A line feed as a string. *)
Definition nl : string := String LF EmptyString.

(** The file of the scenario: a nameserver, a comment and an option. *)
Definition scenario_file : string :=
  "nameserver 8.8.8.8" ++ nl ++ "# comment" ++ nl ++ "option ndots:0".

(** The address 8.8.8.8, as [net.ParseIP] returns it. *)
Definition ip_8_8_8_8 : net.IP := net.IPv4 x08 x08 x08 x08.

(** The snapshot of the scenario file, as the code builds it. *)
Definition scenario_snapshot : File :=
  {| Content := list_byte_of_string scenario_file;
     Hash := hash_of (list_byte_of_string scenario_file);
     Nameservers := [ip_8_8_8_8];
     Options := ["option ndots:0"] |}.

(** A file whose second nameserver entry is not an address. *)
Definition broken_file : string :=
  "nameserver 1.1.1.1" ++ nl ++ "nameserver one.one" ++ nl
  ++ "nameserver 8.8.8.8" ++ nl ++ "nameserver ?".

(** A file without nameserver entries. *)
Definition quiet_file : string :=
  "# generated" ++ nl ++ "search example.org" ++ nl ++ nl
  ++ "  # nameserver 10.0.0.1".

(** The value of a digest read as a number, least significant byte
    first. *)
Fixpoint digest_value (d : list byte) : Z :=
  match d with
  | [] => 0
  | b :: d' => byte_val b + 256 * digest_value d'
  end.

(** The [k] low binary digits of [n], least significant first, as the
    characters ['0'] and ['1']. *)
Fixpoint bits (k : nat) (n : Z) : string :=
  match k with
  | O => EmptyString
  | S k' =>
      String (if Z.odd n then "1"%char else "0"%char) (bits k' (Z.div2 n))
  end.

(** A resolv.conf that is one comment line: the number [n] in binary. *)
Definition numbered_file (n : Z) : list byte :=
  list_byte_of_string ("#" ++ bits 257 n).

(** A file system where every file has the same content. *)
Definition always (content : list byte) : FS := fun _ => (content, None).

(** One white-space rune, as bytes: a non-empty string that is, in whole,
    the white-space rune it starts with. *)
Definition space_rune (a : string) : Prop :=
  a <> EmptyString /\ strings.leadingSpace a = String.length a.

(** A string made of white-space runes only. *)
Inductive white : string -> Prop :=
| white_nil : white EmptyString
| white_rune (a b : string) : space_rune a -> white b -> white (a ++ b).

(** [e] is [s] trimmed of leading and trailing white space: what was cut
    on each side is white space, and [e] neither starts nor ends with a
    white-space rune. *)
Definition trimmed_of (s e : string) : Prop :=
  exists pre post,
    s = pre ++ e ++ post
    /\ white pre /\ white post
    /\ strings.leadingSpace e = O
    /\ strings.trailingSpace (strings.rev e) = O.

(** ** Words for the further properties *)

(** The addresses of the nameserver entries of a list of lines, in order,
    entries that do not parse left out. *)
Definition entry_addresses (lines : list string) : list net.IP :=
  flat_map
    (fun l =>
       if strings.HasPrefix l nameserverKey then
         match net.ParseIP (nameserver_value l) with
         | Some ip => [ip]
         | None => []
         end
       else [])
    lines.

(** The nameserver entries among the lines. *)
Definition nameserver_lines (lines : list string) : list string :=
  filter (fun l => strings.HasPrefix l nameserverKey) lines.

(** The option lines among the lines. *)
Definition option_lines (lines : list string) : list string :=
  filter (fun l => strings.HasPrefix l optionKey) lines.

(** The path [Path] settles on when it probes the files [fs]. *)
Definition resolved (fs : FS) : string :=
  if loopback_only (fs defaultPath) then alternatePath else defaultPath.

(** The goroutine that holds the mutex is between [Lock] and [Unlock]. *)
Definition holder_inside (s : Concurrent.state) : Prop :=
  forall h, Concurrent.st_mutex s = Some h ->
            Concurrent.critical (Concurrent.st_pcs s h) = true.

(** While the files stay [fs]: a goroutine past the read holds the content
    of the default file, and the path variable is the default until the
    function given to the [Once] has run, the resolved path after. *)
Record agrees (fs : FS) (s : Concurrent.state) : Prop := {
  agr_files : files (Concurrent.st_world s) = fs;
  agr_read : forall t r, Concurrent.st_pcs s t = Concurrent.AtParse r ->
                         r = fs defaultPath;
  agr_before : (forall t, Concurrent.st_pcs s t <> Concurrent.AtStore) ->
               Concurrent.done s = false ->
               Concurrent.path s = defaultPath;
  agr_after : Concurrent.done s = true
              \/ (exists t, Concurrent.st_pcs s t = Concurrent.AtStore) ->
              Concurrent.path s = resolved fs
}.

(** Value of a hexadecimal digit character, 16 for any other character. *)
Definition hex_value (c : ascii) : Z :=
  let v := ord c in
  if (48 <=? v) && (v <=? 57) then v - 48
  else if (97 <=? v) && (v <=? 102) then v - 87
  else 16.

(** Decoding of a string of pairs of hexadecimal digits. *)
Fixpoint hex_decode (s : string) : list byte :=
  match s with
  | String hi (String lo s') =>
      byte_of_Z (16 * hex_value hi + hex_value lo) :: hex_decode s'
  | _ => []
  end.

(** * Properties *)

(** ** Strings *)

Lemma length_app_string (a b : string) :
  String.length (a ++ b) = (String.length a + String.length b)%nat.
Proof.
  induction a as [|c a IH]; simpl; [reflexivity | now rewrite IH].
Qed.

Lemma take_drop_id (n : nat) (s : string) :
  strings.take n s ++ strings.drop n s = s.
Proof.
  revert s; induction n as [|n IH]; intros [|c s]; simpl; try reflexivity.
  now rewrite IH.
Qed.

Lemma take_app_exact (a b : string) :
  strings.take (String.length a) (a ++ b) = a.
Proof.
  induction a as [|c a IH]; simpl.
  - now destruct b.
  - now rewrite IH.
Qed.

Lemma drop_app_exact (a b : string) :
  strings.drop (String.length a) (a ++ b) = b.
Proof.
  induction a as [|c a IH]; simpl; [reflexivity | exact IH].
Qed.

Lemma length_take_le (n : nat) (s : string) :
  (n <= String.length s)%nat -> String.length (strings.take n s) = n.
Proof.
  revert s; induction n as [|n IH]; intros [|c s] H; simpl in *;
    try reflexivity; try lia.
  rewrite IH; lia.
Qed.

Lemma length_drop (n : nat) (s : string) :
  String.length (strings.drop n s) = (String.length s - n)%nat.
Proof.
  revert s; induction n as [|n IH]; intros [|c s]; simpl; try lia.
  apply IH.
Qed.

(** [HasPrefix s p] holds exactly when [s] is [p] followed by something. *)
Lemma HasPrefix_iff (s p : string) :
  strings.HasPrefix s p = true <-> exists rest, s = p ++ rest.
Proof.
  unfold strings.HasPrefix; split.
  - intros H. apply andb_true_iff in H as [_ H].
    apply String.eqb_eq in H.
    exists (strings.drop (String.length p) s).
    rewrite <- H at 1. symmetry; apply take_drop_id.
  - intros [rest ->]. apply andb_true_iff; split.
    + apply Nat.leb_le. rewrite length_app_string; lia.
    + rewrite take_app_exact. apply String.eqb_refl.
Qed.

Lemma HasPrefix_app (p rest : string) : strings.HasPrefix (p ++ rest) p = true.
Proof. apply HasPrefix_iff; now exists rest. Qed.

Lemma TrimPrefix_app (p rest : string) : strings.TrimPrefix (p ++ rest) p = rest.
Proof.
  unfold strings.TrimPrefix. rewrite HasPrefix_app. apply drop_app_exact.
Qed.

Lemma HasPrefix_nil (s : string) : strings.HasPrefix s "" = true.
Proof. apply HasPrefix_iff; now exists s. Qed.

(** A string that does not start with the one-character string [c]. *)
Lemma HasPrefix_char (c d : ascii) (s : string) :
  strings.HasPrefix (String d s) (String c "") = Ascii.eqb d c.
Proof.
  unfold strings.HasPrefix; simpl.
  now destruct (Ascii.eqb d c).
Qed.

(** *** [Index] finds the first occurrence *)

Lemma indexFrom_spec (sub s : string) (i : Z) :
  (strings.indexFrom s sub i = -1 /\ 0 <= i -> truncate_at sub s = s)
  /\ (0 <= i ->
      strings.indexFrom s sub i = -1
      \/ (i <= strings.indexFrom s sub i
          /\ strings.take (Z.to_nat (strings.indexFrom s sub i - i)) s
             = truncate_at sub s)).
Proof.
  revert i; induction s as [|c s IH]; intros i.
  - simpl. destruct (strings.HasPrefix "" sub) eqn:E.
    + split; [reflexivity|]. intros Hi; right.
      split; [lia|]. now rewrite Z.sub_diag.
    + split; [reflexivity|]. intros _; now left.
  - cbn [strings.indexFrom truncate_at].
    destruct (strings.HasPrefix (String c s) sub) eqn:E.
    + split; [intros [-> Hi]; lia|]. intros Hi; right.
      split; [lia|]. now rewrite Z.sub_diag.
    + destruct (IH (i + 1)) as [IH1 IH2]. split.
      * intros [H Hi]. f_equal. apply IH1; split; [exact H | lia].
      * intros Hi. destruct IH2 as [H | [Hle H]]; [lia | now left |].
        right. split; [lia|].
        replace (Z.to_nat (strings.indexFrom s sub (i + 1) - i))
          with (S (Z.to_nat (strings.indexFrom s sub (i + 1) - (i + 1))))
          by lia.
        simpl. now rewrite H.
Qed.

(** The truncation the code computes with [Index] and a slice is the
    truncation at the first occurrence. *)
Lemma Index_take_truncate (marker line : string) :
  (if negb (strings.Index line marker =? -1)
   then strings.take (Z.to_nat (strings.Index line marker)) line
   else line)
  = truncate_at marker line.
Proof.
  unfold strings.Index.
  destruct (indexFrom_spec marker line 0) as [H1 H2].
  destruct (Z.eqb_spec (strings.indexFrom line marker 0) (-1)) as [E | E];
    simpl.
  - symmetry; apply H1; split; [exact E | lia].
  - destruct H2 as [H | [_ H]]; [lia | contradiction |].
    now rewrite Z.sub_0_r in H.
Qed.

(** What [truncate_at] keeps and what it drops: the kept part is a prefix
    in which the marker starts nowhere, and the marker starts right after
    it unless the whole line is kept. *)
Lemma truncate_at_first (marker line : string) :
  let kept := truncate_at marker line in
  strings.take (String.length kept) line = kept
  /\ (forall k, (k < String.length kept)%nat -> ~ occurs_at marker line k)
  /\ (kept = line \/ occurs_at marker line (String.length kept)).
Proof.
  unfold occurs_at.
  induction line as [|c line IH]; cbn [truncate_at].
  - destruct (strings.HasPrefix "" marker) eqn:E; simpl.
    + repeat split; [intros k Hk; lia | now left].
    + repeat split; [intros k Hk; lia | now left].
  - destruct (strings.HasPrefix (String c line) marker) eqn:E.
    + simpl. repeat split; [intros k Hk; lia | now right].
    + destruct IH as (IH1 & IH2 & IH3). cbn [String.length strings.take].
      split; [now rewrite IH1|]. split.
      * intros [|k] Hk; simpl.
        -- now rewrite E.
        -- apply IH2. lia.
      * destruct IH3 as [-> | H]; [now left | right; exact H].
Qed.

(** *** [Split] on the line feed gives the lines *)

Lemma lines_of_not_nil (s : string) : lines_of s <> [].
Proof.
  induction s as [|c s IH]; simpl; [discriminate|].
  destruct (Ascii.eqb c LF); [discriminate|].
  destruct (lines_of s); discriminate.
Qed.

Lemma length_lines_of (s : string) :
  List.length (lines_of s) = S (count_LF s).
Proof.
  induction s as [|c s IH]; simpl; [reflexivity|].
  destruct (Ascii.eqb c LF); simpl; [now rewrite IH|].
  destruct (lines_of s) eqn:E; simpl in *; [discriminate | exact IH].
Qed.

(** Joining the lines with line feeds gives the text back. *)
Lemma concat_lines_of (s : string) : String.concat nl (lines_of s) = s.
Proof.
  induction s as [|c s IH]; simpl; [reflexivity|].
  destruct (Ascii.eqb_spec c LF) as [-> | Hc].
  - simpl. destruct (lines_of s) eqn:E.
    + now destruct (lines_of_not_nil s).
    + cbn [String.concat] in *. now rewrite IH.
  - destruct (lines_of s) as [|l ls] eqn:E.
    + now destruct (lines_of_not_nil s).
    + cbn [String.concat] in *. destruct ls; simpl in *; now rewrite IH.
Qed.

(** No line holds a line feed. *)
Lemma lines_of_no_LF (s l : string) :
  In l (lines_of s) -> count_LF l = O.
Proof.
  revert l; induction s as [|c s IH]; simpl; intros l H.
  - destruct H as [<- | []]. reflexivity.
  - destruct (Ascii.eqb c LF) eqn:Ec.
    + destruct H as [<- | H]; [reflexivity | now apply IH].
    + destruct (lines_of s) as [|l0 ls] eqn:E.
      * destruct H as [<- | []]. simpl. now rewrite Ec.
      * destruct H as [<- | H].
        -- simpl. rewrite Ec. apply IH. now left.
        -- apply IH. now right.
Qed.

Lemma HasPrefix_nl (c : ascii) (s : string) :
  strings.HasPrefix (String c s) nl = Ascii.eqb c LF.
Proof. apply HasPrefix_char. Qed.

(** The first line feed of [s], seen by [indexFrom]: either there is none
    and [s] is its only line, or [s] is a first line [a], a line feed and a
    rest [b]. *)
Lemma indexFrom_LF (s : string) (i : Z) :
  (strings.indexFrom s nl i = -1 /\ lines_of s = [s])
  \/ (exists a b,
         s = a ++ nl ++ b
         /\ strings.indexFrom s nl i = i + Z.of_nat (String.length a)
         /\ lines_of s = a :: lines_of b).
Proof.
  revert i; induction s as [|c s IH]; intros i.
  - left. now vm_compute.
  - cbn [strings.indexFrom lines_of]. rewrite HasPrefix_nl.
    destruct (Ascii.eqb_spec c LF) as [-> | Hc].
    + right. exists "", s. simpl. repeat split. lia.
    + destruct (IH (i + 1)) as [[H1 H2] | (a & b & H1 & H2 & H3)].
      * left. rewrite H1, H2. now split.
      * right. exists (String c a), b. rewrite H2, H3.
        repeat split.
        -- simpl. now rewrite H1.
        -- cbn [String.length]. rewrite Nat2Z.inj_succ. lia.
Qed.

Lemma genSplit_lines_of (fuel : nat) (s : string) :
  (String.length s <= fuel)%nat -> strings.genSplit fuel s nl = lines_of s.
Proof.
  revert s; induction fuel as [|fuel IH]; intros s Hlen.
  - destruct s; simpl in *; [reflexivity | lia].
  - cbn [strings.genSplit]. unfold strings.Index.
    destruct (indexFrom_LF s 0) as [[H1 H2] | (a & b & H1 & H2 & H3)].
    + rewrite H1, H2. reflexivity.
    + rewrite H2, H3. rewrite Z.add_0_l.
      destruct (Z.ltb_spec (Z.of_nat (String.length a)) 0) as [Hneg|_];
        [lia|].
      rewrite Nat2Z.id. subst s.
      rewrite take_app_exact. f_equal.
      replace (String.length a + String.length nl)%nat
        with (String.length (a ++ nl)) by apply length_app_string.
      replace (a ++ nl ++ b) with ((a ++ nl) ++ b).
      * rewrite drop_app_exact. apply IH.
        rewrite !length_app_string in Hlen. simpl in Hlen. lia.
      * clear. induction a as [|c a IHa]; simpl; [reflexivity|].
        now rewrite IHa.
Qed.

Lemma Split_lines_of (s : string) : strings.Split s nl = lines_of s.
Proof. unfold strings.Split. apply genSplit_lines_of. lia. Qed.

Lemma getLines_loop_map (marker : string) (ls acc : list string) :
  fold_left
    (fun output currentLine =>
       let commentIndex := strings.Index currentLine marker in
       let line :=
         if negb (commentIndex =? -1)
         then strings.take (Z.to_nat commentIndex) currentLine
         else currentLine in
       (output ++ [strings.TrimSpace line])%list)
    ls acc
  = (acc ++ map (fun l => strings.TrimSpace (truncate_at marker l)) ls)%list.
Proof.
  revert acc; induction ls as [|l ls IH]; intros acc; simpl.
  - now rewrite app_nil_r.
  - rewrite IH, Index_take_truncate. now rewrite <- app_assoc.
Qed.

Lemma getLines_map (input marker : string) :
  getLines input marker
  = map (fun l => strings.TrimSpace (truncate_at marker l)) (lines_of input).
Proof.
  unfold getLines. fold nl. rewrite Split_lines_of.
  apply getLines_loop_map.
Qed.

(** ** The library models on examples *)

(** [strings.TrimSpace] on ASCII and on multi-byte white space (a
    no-break space U+00A0 in front, an ideographic space U+3000 behind), and
    a byte that only looks like the tail of one. *)
Lemma TrimSpace_examples :
  strings.TrimSpace ("  nameserver 8.8.8.8 " ++ String "009" nl)
  = "nameserver 8.8.8.8"
  /\ strings.TrimSpace
       (String "194" (String "160" ("a b"
          ++ String "227" (String "128" (String "128" "")))))
     = "a b"
  /\ strings.TrimSpace (String "160" "x") = String "160" "x"
  /\ strings.TrimSpace "" = "".
Proof. repeat split; vm_compute; reflexivity. Qed.

(** [strings.Index] and [strings.Split]. *)
Lemma Index_Split_examples :
  strings.Index "search a # b # c" "#" = 9
  /\ strings.Index "search a" "#" = -1
  /\ strings.Index "abc" "" = 0
  /\ strings.Split ("a" ++ nl ++ nl ++ "b" ++ nl) nl = ["a"; ""; "b"; ""].
Proof. repeat split; vm_compute; reflexivity. Qed.

(** [net.ParseIP] on dotted quads and on IPv6 literals. *)
Lemma ParseIP_examples :
  net.ParseIP "8.8.8.8" = Some ip_8_8_8_8
  /\ net.ParseIP "127.0.0.53" = Some (net.IPv4 x7f x00 x00 x35)
  /\ net.ParseIP "::1" = Some net.IPv6loopback
  /\ net.ParseIP "2001:db8::1"
     = Some [x20; x01; x0d; xb8; x00; x00; x00; x00;
             x00; x00; x00; x00; x00; x00; x00; x01]
  /\ net.ParseIP "::ffff:1.2.3.4" = Some (net.IPv4 x01 x02 x03 x04)
  /\ net.ParseIP "" = None
  /\ net.ParseIP "s" = None
  /\ net.ParseIP "1.2.3" = None
  /\ net.ParseIP "1.2.3.256" = None
  /\ net.ParseIP "1.2.3.4.5" = None
  /\ net.ParseIP "01.2.3.4" = None
  /\ net.ParseIP "1::2::3" = None
  /\ net.ParseIP "1:2:3:4:5:6:7:8:9" = None
  /\ net.ParseIP "fe80::1%eth0" = None.
Proof. repeat split; vm_compute; reflexivity. Qed.

(** [IsLoopback]: 127.0.0.0/8 and ::1. *)
Lemma IsLoopback_examples :
  net.IsLoopback (net.IPv4 x7f x00 x00 x35) = true
  /\ net.IsLoopback net.IPv6loopback = true
  /\ net.IsLoopback ip_8_8_8_8 = false.
Proof. repeat split; vm_compute; reflexivity. Qed.

(** The scenarios of the path resolver. *)
Lemma Path_scenarios :
  fst (Path (start (one_file defaultPath "nameserver 127.0.0.53")))
  = alternatePath
  /\ fst (Path (start (one_file defaultPath
                         ("nameserver 127.0.0.53" ++ nl
                          ++ "nameserver 8.8.8.8"))))
     = defaultPath
  /\ fst (Path (start no_file)) = defaultPath
  /\ (exists e, fst (GetSpecific defaultPath (start no_file))
                = (None, Some e)).
Proof.
  repeat split; try (vm_compute; reflexivity).
  eexists. vm_compute. reflexivity.
Qed.

(** ** The nameserver loop *)

(** A line that is not a nameserver entry is skipped. *)
Lemma getNameservers_loop_skip (i : nat) (line : string)
  (lines : list string) (acc : list net.IP) :
  strings.HasPrefix line nameserverKey = false ->
  getNameservers_loop i (line :: lines) acc
  = getNameservers_loop (S i) lines acc.
Proof. intros H; simpl. now rewrite H. Qed.

(** A nameserver entry is parsed: its address is appended, or the loop
    stops with the error. *)
Lemma getNameservers_loop_entry (i : nat) (line : string)
  (lines : list string) (acc : list net.IP) :
  strings.HasPrefix line nameserverKey = true ->
  getNameservers_loop i (line :: lines) acc
  = match net.ParseIP (nameserver_value line) with
    | None => ([], Some (parse_error i (nameserver_value line)))
    | Some ip => getNameservers_loop (S i) lines (acc ++ [ip])%list
    end.
Proof. intros H; simpl. now rewrite H. Qed.

(** Without nameserver entries the loop returns what it was given. *)
Lemma getNameservers_loop_none (lines : list string) :
  (forall l, In l lines -> strings.HasPrefix l nameserverKey = false) ->
  forall i acc, getNameservers_loop i lines acc = (acc, None).
Proof.
  induction lines as [|l lines IH]; intros H i acc; [reflexivity|].
  rewrite getNameservers_loop_skip by (apply H; now left).
  apply IH. intros l' Hl'. apply H. now right.
Qed.

(** The loop fails at the first invalid entry, whatever follows it. *)
Lemma getNameservers_loop_first_invalid (pre : list string) :
  forall (bad : string) (rest : list string) (i : nat) (acc : list net.IP),
    (forall l, In l pre -> ~ invalid_entry l) ->
    invalid_entry bad ->
    getNameservers_loop i (pre ++ bad :: rest)%list acc
    = ([], Some (parse_error (i + List.length pre)
                   (nameserver_value bad))).
Proof.
  induction pre as [|l pre IH]; intros bad rest i acc Hpre [Hk Hbad].
  - simpl app. rewrite getNameservers_loop_entry by exact Hk.
    rewrite Hbad. simpl. now rewrite Nat.add_0_r.
  - simpl app.
    assert (Hrest : forall l', In l' pre -> ~ invalid_entry l')
      by (intros l' Hl'; apply Hpre; now right).
    replace (i + List.length (l :: pre))%nat
      with (S i + List.length pre)%nat by (simpl; lia).
    destruct (strings.HasPrefix l nameserverKey) eqn:El.
    + rewrite getNameservers_loop_entry by exact El.
      destruct (net.ParseIP (nameserver_value l)) as [ip|] eqn:Ep.
      * apply IH; [exact Hrest | now split].
      * exfalso. apply (Hpre l); [now left | now split].
    + rewrite getNameservers_loop_skip by exact El.
      apply IH; [exact Hrest | now split].
Qed.

Lemma invalid_entry_dec (l : string) : {invalid_entry l} + {~ invalid_entry l}.
Proof.
  unfold invalid_entry.
  destruct (strings.HasPrefix l nameserverKey);
    [|right; intros [H _]; discriminate].
  destruct (net.ParseIP (nameserver_value l));
    [right; intros [_ H]; discriminate | left; now split].
Qed.

(** A list with an invalid entry at position [i] has a first one, at or
    before [i]. *)
Lemma first_invalid_entry (lines : list string) :
  forall (i : nat) (l : string),
    nth_error lines i = Some l -> invalid_entry l ->
    exists pre bad rest,
      lines = (pre ++ bad :: rest)%list
      /\ (List.length pre <= i)%nat
      /\ (forall l', In l' pre -> ~ invalid_entry l')
      /\ invalid_entry bad.
Proof.
  induction lines as [|l0 lines IH]; intros i l Hn Hl.
  - destruct i; discriminate.
  - destruct (invalid_entry_dec l0) as [H0 | H0].
    + exists [], l0, lines. repeat split; simpl; try lia; try tauto.
      all: apply H0.
    + destruct i as [|i]; simpl in Hn.
      * injection Hn as ->. contradiction.
      * destruct (IH i l Hn Hl) as (pre & bad & rest & E & Hlen & Hpre & Hb).
        exists (l0 :: pre), bad, rest. repeat split.
        -- simpl. now rewrite E.
        -- simpl. lia.
        -- intros l' [<- | Hl']; [exact H0 | now apply Hpre].
        -- apply Hb.
        -- apply Hb.
Qed.

(** ** The reader *)

(** Hashing bytes held in memory cannot fail. *)
Lemma hashData_NewReader (b : list byte) :
  hashData (bytes.NewReader b) = (hash_of b, None).
Proof. reflexivity. Qed.

(** A reader that fails makes [hashData] fail with its error. *)
Lemma hashData_error (src : io.Reader) (e : error) :
  io.fails src = Some e -> hashData src = ("", Some e).
Proof. intros H. unfold hashData, io.Copy. now rewrite H. Qed.

(** [GetSpecific] by cases, in the order of its three checks. *)
Lemma GetSpecific_cases (path : string) (w : world) :
  fst (GetSpecific path w)
  = match files w path with
    | (_, Some e) => (None, Some e)
    | (resolv, None) =>
        match getNameservers (string_of_list_byte resolv) with
        | (_, Some e) => (None, Some e)
        | (nameservers, None) =>
            (Some {| Content := resolv;
                     Hash := hash_of resolv;
                     Nameservers := nameservers;
                     Options := getOptions (string_of_list_byte resolv) |},
             None)
        end
    end.
Proof.
  unfold GetSpecific, bind, ioutil.ReadFile.
  destruct (files w path) as [resolv [e|]]; [reflexivity|].
  rewrite hashData_NewReader.
  destruct (getNameservers (string_of_list_byte resolv)) as [ns [e|]];
    reflexivity.
Qed.

(** [GetSpecific] reads the file once and touches nothing else. *)
Lemma GetSpecific_world (path : string) (w : world) :
  snd (GetSpecific path w)
  = {| files := files w;
       filesRead := (filesRead w ++ [path])%list;
       detectSystemdResolvConfOnce := detectSystemdResolvConfOnce w;
       pathAfterSystemdDetection := pathAfterSystemdDetection w |}.
Proof.
  unfold GetSpecific, bind, ioutil.ReadFile.
  destruct (files w path) as [resolv [e|]]; [reflexivity|].
  rewrite hashData_NewReader.
  destruct (getNameservers (string_of_list_byte resolv)) as [ns [e|]];
    reflexivity.
Qed.

(** ** Claims on the parser and the reader *)

(** A line that starts with the option keyword does not start with the
    nameserver keyword, so [TrimPrefix] leaves it whole. *)
Lemma option_line_keeps_keyword (rest : string) :
  strings.TrimPrefix ("option" ++ rest) nameserverKey = "option" ++ rest.
Proof.
  unfold strings.TrimPrefix, strings.HasPrefix. simpl.
  now rewrite andb_false_r.
Qed.

(** C1 (the code departs from the claim): for a line that begins with
    [option], option extraction strips the [nameserver] keyword, which is
    not there, so the value appended is the whole trimmed line, keyword
    included.  On the scenario file [Read] returns the nameserver 8.8.8.8
    and the option ["option ndots:0"], not ["ndots:0"]. *)
Theorem C1_getOptions_keeps_option_keyword :
  (forall rest options,
      getOptions_body options ("option" ++ rest)
      = (options ++ [strings.TrimSpace ("option" ++ rest)])%list)
  /\ getOptions scenario_file = ["option ndots:0"]
  /\ (exists f,
         fst (GetSpecific defaultPath
                (start (one_file defaultPath scenario_file)))
         = (Some f, None)
         /\ Nameservers f = [ip_8_8_8_8]
         /\ Options f = ["option ndots:0"]
         /\ Options f <> ["ndots:0"]).
Proof.
  split; [|split].
  - intros rest options. unfold getOptions_body.
    unfold optionKey. rewrite HasPrefix_app. simpl negb. cbv iota.
    now rewrite option_line_keeps_keyword.
  - now vm_compute.
  - eexists. split; [now vm_compute|].
    cbn [Nameservers Options]. repeat split. discriminate.
Qed.

(** C3: when some line of the file is recognized as a nameserver entry and
    its value is not an IP address literal, [getNameservers] and [Read]
    fail with the parse error that carries the index and the value of the
    first such line; no list and no snapshot are returned, and what follows
    that line plays no part. *)
Theorem C3_invalid_nameserver_fails_fast (w : world) (path : string)
  (content : list byte) (i : nat) (line : string) :
  files w path = (content, None) ->
  nth_error (getLines (string_of_list_byte content) commentMark) i
  = Some line ->
  invalid_entry line ->
  exists i0 line0,
    (i0 <= i)%nat
    /\ nth_error (getLines (string_of_list_byte content) commentMark) i0
       = Some line0
    /\ invalid_entry line0
    /\ (forall j lj,
           (j < i0)%nat ->
           nth_error (getLines (string_of_list_byte content) commentMark) j
           = Some lj ->
           ~ invalid_entry lj)
    /\ getNameservers (string_of_list_byte content)
       = ([], Some (parse_error i0 (nameserver_value line0)))
    /\ fst (GetSpecific path w)
       = (None, Some (parse_error i0 (nameserver_value line0)))
    /\ (forall other,
           firstn (S i0) (getLines other commentMark)
           = firstn (S i0)
               (getLines (string_of_list_byte content) commentMark) ->
           getNameservers other
           = ([], Some (parse_error i0 (nameserver_value line0)))).
Proof.
  intros Hfile Hnth Hinv.
  destruct (first_invalid_entry _ i line Hnth Hinv)
    as (pre & bad & rest & E & Hlen & Hpre & Hbad).
  assert (Hres : forall tail acc,
             getNameservers_loop 0 (pre ++ bad :: tail)%list acc
             = ([], Some (parse_error (List.length pre)
                            (nameserver_value bad))))
    by (intros tail acc;
        now rewrite getNameservers_loop_first_invalid).
  exists (List.length pre), bad. split; [exact Hlen|].
  split.
  { rewrite E. rewrite nth_error_app2 by lia. now rewrite Nat.sub_diag. }
  split; [exact Hbad|]. split.
  { intros j lj Hj Hlj. rewrite E in Hlj.
    rewrite nth_error_app1 in Hlj by exact Hj.
    apply Hpre. eapply nth_error_In; exact Hlj. }
  assert (Hget : getNameservers (string_of_list_byte content)
                 = ([], Some (parse_error (List.length pre)
                                (nameserver_value bad))))
    by (unfold getNameservers; rewrite E; apply Hres).
  split; [exact Hget|]. split.
  { rewrite GetSpecific_cases, Hfile, Hget. reflexivity. }
  intros other Hother. unfold getNameservers.
  rewrite <- (firstn_skipn (S (List.length pre)) (getLines other commentMark)).
  rewrite Hother, E.
  replace (S (List.length pre)) with (List.length (pre ++ [bad])%list)
    by (rewrite length_app; simpl; lia).
  replace (pre ++ bad :: rest)%list with ((pre ++ [bad]) ++ rest)%list
    by (now rewrite <- app_assoc).
  rewrite firstn_app, Nat.sub_diag, firstn_all. simpl firstn.
  rewrite app_nil_r, <- app_assoc. simpl app. apply Hres.
Qed.

(** C3, on a file whose second and fourth nameserver lines are invalid: the
    error is about line 1. *)
Lemma C3_invalid_nameserver_fails_fast_witness :
  exists i0 line0,
    (i0 <= 3)%nat
    /\ nth_error (getLines (string_of_list_byte
                              (list_byte_of_string broken_file))
                    commentMark) i0 = Some line0
    /\ invalid_entry line0
    /\ (forall j lj,
           (j < i0)%nat ->
           nth_error (getLines (string_of_list_byte
                                  (list_byte_of_string broken_file))
                        commentMark) j = Some lj ->
           ~ invalid_entry lj)
    /\ getNameservers (string_of_list_byte (list_byte_of_string broken_file))
       = ([], Some (parse_error i0 (nameserver_value line0)))
    /\ fst (GetSpecific defaultPath
              (start (one_file defaultPath broken_file)))
       = (None, Some (parse_error i0 (nameserver_value line0)))
    /\ (forall other,
           firstn (S i0) (getLines other commentMark)
           = firstn (S i0)
               (getLines (string_of_list_byte
                            (list_byte_of_string broken_file)) commentMark) ->
           getNameservers other
           = ([], Some (parse_error i0 (nameserver_value line0)))).
Proof.
  apply (C3_invalid_nameserver_fails_fast
           (start (one_file defaultPath broken_file)) defaultPath
           (list_byte_of_string broken_file) 3 "nameserver ?").
  - reflexivity.
  - vm_compute. reflexivity.
  - split; vm_compute; reflexivity.
Defined.

(** C7: [Read] returns an error and no snapshot, or a snapshot and no
    error.  It fails exactly when the file cannot be read or a nameserver
    entry does not parse (hashing bytes in memory cannot fail, and a failing
    reader would give no snapshot either); on success the four fields come
    from the bytes of the one read of the file. *)
Theorem C7_GetSpecific_error_or_full_snapshot (path : string) (w : world) :
  ((exists e, fst (GetSpecific path w) = (None, Some e))
   \/ (exists f,
          fst (GetSpecific path w) = (Some f, None)
          /\ files w path = (Content f, None)
          /\ hashData (bytes.NewReader (Content f)) = (Hash f, None)
          /\ getNameservers (string_of_list_byte (Content f))
             = (Nameservers f, None)
          /\ Options f = getOptions (string_of_list_byte (Content f))))
  /\ (forall e, snd (files w path) = Some e ->
        fst (GetSpecific path w) = (None, Some e))
  /\ (forall e, snd (files w path) = None ->
        snd (getNameservers (string_of_list_byte (fst (files w path))))
        = Some e ->
        fst (GetSpecific path w) = (None, Some e))
  /\ (forall src e, io.fails src = Some e -> hashData src = ("", Some e))
  /\ filesRead (snd (GetSpecific path w)) = (filesRead w ++ [path])%list.
Proof.
  rewrite GetSpecific_cases, GetSpecific_world.
  destruct (files w path) as [resolv [e|]] eqn:Ef; cbn [fst snd filesRead].
  - split; [left; now exists e|]. repeat split.
    + now intros e' [= ->].
    + discriminate.
    + exact hashData_error.
  - destruct (getNameservers (string_of_list_byte resolv)) as [ns [e|]]
      eqn:En; cbn [fst snd].
    + split; [left; now exists e|]. repeat split.
      * discriminate.
      * now intros e' _ [= ->].
      * exact hashData_error.
    + split.
      * right. eexists. split; [reflexivity|]. cbn [Content Hash
          Nameservers Options]. rewrite hashData_NewReader, En.
        now repeat split.
      * repeat split; try discriminate. exact hashData_error.
Qed.

(** C8: a readable file none of whose lines (comments stripped, trimmed)
    begins with [nameserver] is read with success, and its list of
    nameservers is empty. *)
Theorem C8_no_nameserver_line_gives_empty_list (w : world) (path : string)
  (content : list byte) :
  files w path = (content, None) ->
  (forall l, In l (getLines (string_of_list_byte content) commentMark) ->
             strings.HasPrefix l nameserverKey = false) ->
  getNameservers (string_of_list_byte content) = ([], None)
  /\ exists f, fst (GetSpecific path w) = (Some f, None)
               /\ Nameservers f = [].
Proof.
  intros Hfile Hnone.
  assert (Hget : getNameservers (string_of_list_byte content) = ([], None))
    by (unfold getNameservers; now apply getNameservers_loop_none).
  split; [exact Hget|].
  rewrite GetSpecific_cases, Hfile, Hget.
  eexists; split; reflexivity.
Qed.

(** C8, on a file of comments and other directives. *)
Lemma C8_no_nameserver_line_gives_empty_list_witness :
  getNameservers (string_of_list_byte (list_byte_of_string quiet_file))
  = ([], None)
  /\ exists f,
      fst (GetSpecific defaultPath (start (one_file defaultPath quiet_file)))
      = (Some f, None)
      /\ Nameservers f = [].
Proof.
  apply (C8_no_nameserver_line_gives_empty_list
           (start (one_file defaultPath quiet_file)) defaultPath
           (list_byte_of_string quiet_file)).
  - reflexivity.
  - vm_compute. intros l H.
    repeat (destruct H as [<- | H]; [reflexivity|]). destruct H.
Defined.

(** C10: a line is a nameserver entry as soon as it starts with the ten
    characters of [nameserver], whatever comes next; the value parsed is
    what follows them, trimmed.  So ["nameserver8.8.8.8"] gives 8.8.8.8, and
    ["nameservers"] makes the whole read fail on the value ["s"]. *)
Theorem C10_nameserver_recognized_by_prefix_only :
  String.length nameserverKey = 10%nat
  /\ (forall line,
         strings.HasPrefix line nameserverKey = true
         <-> exists rest, line = "nameserver" ++ rest)
  /\ (forall rest i lines acc,
         getNameservers_loop i (("nameserver" ++ rest) :: lines) acc
         = match net.ParseIP (strings.TrimSpace rest) with
           | None => ([], Some (parse_error i (strings.TrimSpace rest)))
           | Some ip => getNameservers_loop (S i) lines (acc ++ [ip])%list
           end)
  /\ getNameservers "nameserver8.8.8.8" = ([ip_8_8_8_8], None)
  /\ getNameservers "nameservers" = ([], Some (parse_error 0 "s"))
  /\ fst (GetSpecific defaultPath (start (one_file defaultPath "nameservers")))
     = (None, Some (parse_error 0 "s")).
Proof.
  split; [reflexivity|]. split; [intros line; apply HasPrefix_iff|].
  split.
  - intros rest i lines acc.
    rewrite getNameservers_loop_entry by apply HasPrefix_app.
    unfold nameserver_value, nameserverKey.
    now rewrite TrimPrefix_app.
  - repeat split; now vm_compute.
Qed.

(** ** The path resolver, one caller at a time *)

(** What the probe does to the world: the path variable is switched when
    the file names one loopback nameserver, and nothing else changes. *)
Lemma detect_rest_world (r : list byte * option error) (w : world) :
  snd (detect_rest r w)
  = {| files := files w;
       filesRead := filesRead w;
       detectSystemdResolvConfOnce := detectSystemdResolvConfOnce w;
       pathAfterSystemdDetection :=
         if loopback_only r then alternatePath
         else pathAfterSystemdDetection w |}.
Proof.
  destruct w as [fs rd dn pa].
  unfold detect_rest, loopback_only. destruct r as [content [e|]];
    [reflexivity|].
  destruct (getNameservers (string_of_list_byte content))
    as [ns [e|]]; [now destruct ns as [|ip [|ip' ns]]|].
  destruct ns as [|ip [|ip' ns]]; try reflexivity.
  simpl. now destruct (net.IsLoopback ip).
Qed.

(** A first call of [Path]: one read of the default file, the decision, the
    flag. *)
Lemma Path_first (w : world) :
  detectSystemdResolvConfOnce w = false ->
  Path w
  = (if loopback_only (files w defaultPath) then alternatePath
     else pathAfterSystemdDetection w,
     {| files := files w;
        filesRead := (filesRead w ++ [defaultPath])%list;
        detectSystemdResolvConfOnce := true;
        pathAfterSystemdDetection :=
          if loopback_only (files w defaultPath) then alternatePath
          else pathAfterSystemdDetection w |}).
Proof.
  intros Hd. unfold Path, bind, sync.Once_Do. rewrite Hd.
  unfold detect, bind, ioutil.ReadFile.
  match goal with
  | |- context [detect_rest ?r ?w0] =>
      pose proof (detect_rest_world r w0) as H;
      destruct (detect_rest r w0) as [u w1]
  end.
  simpl in H. subst w1. reflexivity.
Qed.

(** A later call of [Path]: the memoized value, and no effect at all. *)
Lemma Path_later (w : world) :
  detectSystemdResolvConfOnce w = true ->
  Path w = (pathAfterSystemdDetection w, w).
Proof.
  intros Hd. unfold Path, bind, sync.Once_Do. now rewrite Hd.
Qed.

Lemma alternatePath_not_default : alternatePath <> defaultPath.
Proof. discriminate. Qed.

(** [loopback_only], spelled out. *)
Lemma loopback_only_iff (r : list byte * option error) :
  loopback_only r = true
  <-> exists content ip,
      r = (content, None)
      /\ getNameservers (string_of_list_byte content) = ([ip], None)
      /\ net.IsLoopback ip = true.
Proof.
  unfold loopback_only. split.
  - destruct r as [content [e|]]; [discriminate|].
    destruct (getNameservers (string_of_list_byte content))
      as [[|ip [|ip' ns]] [e|]] eqn:En; try discriminate.
    intros H. exists content, ip. now rewrite En.
  - intros (content & ip & -> & -> & H). exact H.
Qed.

(** C2: the first call of [Path] returns the alternate path exactly when
    the default file is readable, its nameserver entries parse, and they are
    one loopback address; in every other case (no nameserver, more than one,
    one that is not a loopback, a read error, a parse error) it returns the
    default path. *)
Theorem C2_Path_alternate_iff_single_loopback (fs : FS) :
  (fst (Path (start fs)) = alternatePath
   <-> exists content ip,
       fs defaultPath = (content, None)
       /\ getNameservers (string_of_list_byte content) = ([ip], None)
       /\ net.IsLoopback ip = true)
  /\ (fst (Path (start fs)) <> alternatePath ->
      fst (Path (start fs)) = defaultPath)
  /\ (forall e, snd (fs defaultPath) = Some e ->
                fst (Path (start fs)) = defaultPath)
  /\ (forall content ns,
         fs defaultPath = (content, None) ->
         getNameservers (string_of_list_byte content) = ns ->
         (snd ns <> None
          \/ fst ns = []
          \/ (1 < List.length (fst ns))%nat
          \/ (exists ip, fst ns = [ip] /\ net.IsLoopback ip = false)) ->
         fst (Path (start fs)) = defaultPath).
Proof.
  rewrite Path_first by reflexivity. cbn [fst start files
    pathAfterSystemdDetection].
  pose proof (loopback_only_iff (fs defaultPath)) as Hiff.
  destruct (loopback_only (fs defaultPath)) eqn:El.
  - split; [split; [intros _; now apply Hiff | reflexivity]|].
    split; [congruence|].
    destruct (proj1 Hiff eq_refl) as (content & ip & Hf & Hn & Hl).
    split.
    + intros e He. rewrite Hf in He. discriminate.
    + intros content' ns Hf' Hn' H.
      rewrite Hf in Hf'. injection Hf' as <-. rewrite Hn in Hn'. subst ns.
      cbn [fst snd] in H.
      destruct H as [H | [H | [H | (ip' & [= <-] & H)]]];
        try congruence; try discriminate; simpl in H; lia.
  - split; [|repeat split; intros; reflexivity].
    split; [intros H; symmetry in H; now destruct alternatePath_not_default|].
    intros H. apply Hiff in H. discriminate.
Qed.

(** C4: [Path] returns a string and nothing else; when the default file
    cannot be read, or its nameserver entries do not parse, the first call
    returns the default path, and the call still counts as the one
    detection. *)
Theorem C4_Path_swallows_errors (fs : FS) :
  snd (fs defaultPath) <> None
  \/ snd (getNameservers (string_of_list_byte (fst (fs defaultPath))))
     <> None ->
  fst (Path (start fs)) = defaultPath
  /\ detectSystemdResolvConfOnce (snd (Path (start fs))) = true
  /\ pathAfterSystemdDetection (snd (Path (start fs))) = defaultPath.
Proof.
  intros H. rewrite Path_first by reflexivity.
  cbn [fst snd start files pathAfterSystemdDetection
         detectSystemdResolvConfOnce].
  assert (El : loopback_only (fs defaultPath) = false).
  { unfold loopback_only. destruct (fs defaultPath) as [content [e|]];
      [reflexivity|]. cbn [fst snd] in H.
    destruct (getNameservers (string_of_list_byte content))
      as [ns [e|]]; [now destruct ns as [|ip [|ip' ns]]|].
    cbn [snd] in H. destruct H as [H | H]; now destruct H. }
  rewrite El. now repeat split.
Qed.

(** C4, with no file at all, and with a file whose nameserver is no
    address. *)
Lemma C4_Path_swallows_errors_witness :
  (fst (Path (start no_file)) = defaultPath
   /\ detectSystemdResolvConfOnce (snd (Path (start no_file))) = true
   /\ pathAfterSystemdDetection (snd (Path (start no_file))) = defaultPath)
  /\ (fst (Path (start (one_file defaultPath broken_file))) = defaultPath
      /\ detectSystemdResolvConfOnce
           (snd (Path (start (one_file defaultPath broken_file)))) = true
      /\ pathAfterSystemdDetection
           (snd (Path (start (one_file defaultPath broken_file))))
         = defaultPath).
Proof.
  split.
  - apply (C4_Path_swallows_errors no_file). left. discriminate.
  - apply (C4_Path_swallows_errors (one_file defaultPath broken_file)).
    right. vm_compute. discriminate.
Defined.

(** ** The path resolver, called again and again *)

(** Once the flag is set, calls of [Path] return the memoized path, read no
    file and leave the two variables alone, whatever the files become. *)
Lemma PathTimes_later (n : nat) (env : nat -> FS) (w : world) :
  detectSystemdResolvConfOnce w = true ->
  fst (PathTimes n env w) = repeat (pathAfterSystemdDetection w) n
  /\ filesRead (snd (PathTimes n env w)) = filesRead w
  /\ detectSystemdResolvConfOnce (snd (PathTimes n env w)) = true
  /\ pathAfterSystemdDetection (snd (PathTimes n env w))
     = pathAfterSystemdDetection w.
Proof.
  revert w; induction n as [|n IH]; intros w Hd; [now simpl|].
  cbn [PathTimes]. rewrite Path_later by exact Hd.
  cbn [pathAfterSystemdDetection].
  match goal with
  | |- context [PathTimes n env ?w0] =>
      destruct (IH w0 Hd) as (H1 & H2 & H3 & H4);
      destruct (PathTimes n env w0) as [ps w2]
  end.
  cbn [fst snd filesRead pathAfterSystemdDetection] in *.
  rewrite H1. now repeat split.
Qed.

(** ** The path resolver under concurrent callers *)

Lemma upd_same (f : nat -> Concurrent.pc) (t : nat) (p : Concurrent.pc) :
  Concurrent.upd f t p t = p.
Proof. unfold Concurrent.upd. now rewrite Nat.eqb_refl. Qed.

Lemma upd_other (f : nat -> Concurrent.pc) (t u : nat) (p : Concurrent.pc) :
  u <> t -> Concurrent.upd f t p u = f u.
Proof.
  intros H. unfold Concurrent.upd.
  now destruct (Nat.eqb_spec u t).
Qed.

(** Two goroutines between [Lock] and [Unlock] are one. *)
Lemma critical_unique (s : Concurrent.state) (t u : nat) :
  Concurrent.Inv s ->
  Concurrent.critical (Concurrent.st_pcs s t) = true ->
  Concurrent.critical (Concurrent.st_pcs s u) = true ->
  u = t.
Proof.
  intros I Ht Hu.
  pose proof (Concurrent.inv_mutex s I t Ht) as H1.
  pose proof (Concurrent.inv_mutex s I u Hu) as H2.
  congruence.
Qed.

Lemma computed_critical (p : Concurrent.pc) :
  Concurrent.computed p = true -> Concurrent.critical p = true.
Proof. now destruct p. Qed.

Lemma running_critical (p : Concurrent.pc) :
  Concurrent.running p = true -> Concurrent.critical p = true.
Proof. now destruct p. Qed.

Lemma Inv_initial (fs : FS) : Concurrent.Inv (Concurrent.initial fs).
Proof.
  constructor; simpl; try discriminate; try tauto; auto.
Qed.

(** Case analysis on the goroutine an invariant speaks of: the one that
    moved, or another one. *)
Ltac moved u t :=
  destruct (Nat.eq_dec u t) as [-> | ?];
  [rewrite ?upd_same in * | rewrite ?upd_other in * by assumption].


(** A step that moves goroutine [t] and touches neither the world, the
    mutex nor the returned values keeps the invariant, provided the new
    position is consistent with the flag and the mutex. *)
Lemma Inv_move (s : Concurrent.state) (t : nat) (p : Concurrent.pc) :
  Concurrent.Inv s ->
  (Concurrent.critical p = true -> Concurrent.st_mutex s = Some t) ->
  (Concurrent.running p = true -> Concurrent.done s = false) ->
  (Concurrent.past p = true -> Concurrent.done s = true) ->
  Concurrent.computed (Concurrent.st_pcs s t) = false ->
  Concurrent.Inv
    {| Concurrent.st_world := Concurrent.st_world s;
       Concurrent.st_mutex := Concurrent.st_mutex s;
       Concurrent.st_pcs := Concurrent.upd (Concurrent.st_pcs s) t p;
       Concurrent.st_returned := Concurrent.st_returned s |}.
Proof.
  intros [Hm Hr Hp Hret Hf Hrd] Hc Hrun Hpast Hcomp.
  constructor; unfold Concurrent.done, Concurrent.path, Concurrent.reads in *;
    cbn [Concurrent.st_world Concurrent.st_mutex Concurrent.st_pcs
           Concurrent.st_returned]; auto.
  - intros u Hu. moved u t; eauto.
  - intros u Hu. moved u t; eauto.
  - intros u Hu. moved u t; eauto.
  - intros Hd Hall. apply Hf; [exact Hd|]. intros u.
    specialize (Hall u). moved u t; auto.
Qed.

(** A property of every goroutine, for the one that moved and the others. *)
Ltac thread u t :=
  let H := fresh "H" in
  intros u H; moved u t; [first [discriminate | eauto] | eauto].

(** Opens the invariant of the state after a step. *)
Ltac start_inv :=
  constructor;
  unfold Concurrent.done, Concurrent.path, Concurrent.reads in *;
  cbn [Concurrent.st_world Concurrent.st_mutex Concurrent.st_pcs
         Concurrent.st_returned Concurrent.setDone files filesRead
         detectSystemdResolvConfOnce pathAfterSystemdDetection].

Lemma Inv_step (s : Concurrent.state) (e : Concurrent.event) :
  Concurrent.Inv s -> Concurrent.Inv (Concurrent.step s e).
Proof.
  intros I. pose proof I as [Hm Hr Hp Hret Hf Hrd].
  destruct e as [t | fs]; [|constructor; assumption].
  unfold Concurrent.step, Concurrent.stepThread.
  destruct (Concurrent.st_pcs s t) eqn:Et.
  - (* Idle *)
    apply Inv_move; auto; try discriminate. now rewrite Et.
  - (* AtDo *)
    destruct (detectSystemdResolvConfOnce (Concurrent.st_world s)) eqn:Ed;
      apply Inv_move; auto; try discriminate; now rewrite Et.
  - (* AtLock *)
    destruct (Concurrent.st_mutex s) as [h|] eqn:Emu; [exact I|].
    constructor;
      unfold Concurrent.done, Concurrent.path, Concurrent.reads in *;
      cbn [Concurrent.st_world Concurrent.st_mutex Concurrent.st_pcs
             Concurrent.st_returned]; auto.
    + intros u Hu. moved u t; [reflexivity|].
      specialize (Hm u Hu). congruence.
    + intros u Hu. moved u t; [discriminate | eauto].
    + intros u Hu. moved u t; [discriminate | eauto].
    + intros Hd Hall. apply Hf; [exact Hd|]. intros u.
      specialize (Hall u). moved u t; [now rewrite Et | exact Hall].
  - (* AtCheck *)
    assert (Hmt : Concurrent.st_mutex s = Some t)
      by (apply Hm; now rewrite Et).
    destruct (detectSystemdResolvConfOnce (Concurrent.st_world s)) eqn:Ed;
      apply Inv_move; auto; try discriminate; now rewrite Et.
  - (* AtRead *)
    assert (Hmt : Concurrent.st_mutex s = Some t)
      by (apply Hm; now rewrite Et).
    assert (Hd : Concurrent.done s = false) by (apply (Hr t); now rewrite Et).
    assert (Hnil : Concurrent.reads s = []).
    { apply Hf; [exact Hd|]. intros u.
      destruct (Concurrent.computed (Concurrent.st_pcs s u)) eqn:Eu;
        [|reflexivity].
      assert (u = t) as -> by
          (apply (critical_unique s); auto;
           [now rewrite Et | now apply computed_critical]).
      rewrite Et in Eu. discriminate. }
    unfold ioutil.ReadFile. start_inv.
    + thread u t.
    + intros u _. exact Hd.
    + thread u t.
    + exact Hret.
    + intros _ Hall. specialize (Hall t). rewrite upd_same in Hall.
      discriminate.
    + rewrite Hnil. simpl. lia.
  - (* AtParse *)
    assert (Hmt : Concurrent.st_mutex s = Some t)
      by (apply Hm; now rewrite Et).
    assert (Hd : Concurrent.done s = false) by (apply (Hr t); now rewrite Et).
    rewrite detect_rest_world. start_inv.
    + thread u t.
    + intros u _. exact Hd.
    + thread u t.
    + intros p Hin. destruct (Hret p Hin) as [Hdone _]. congruence.
    + intros _ Hall. specialize (Hall t). rewrite upd_same in Hall.
      discriminate.
    + exact Hrd.
  - (* AtStore *)
    assert (Hmt : Concurrent.st_mutex s = Some t)
      by (apply Hm; now rewrite Et).
    assert (Hd : Concurrent.done s = false) by (apply (Hr t); now rewrite Et).
    start_inv.
    + thread u t.
    + intros u Hu. moved u t; [discriminate|].
      assert (u = t) by
          (apply (critical_unique s); auto;
           [now rewrite Et | now apply running_critical]).
      contradiction.
    + reflexivity.
    + intros p Hin. destruct (Hret p Hin) as [Hdone _]. congruence.
    + discriminate.
    + exact Hrd.
  - (* AtUnlock *)
    assert (Hmt : Concurrent.st_mutex s = Some t)
      by (apply Hm; now rewrite Et).
    assert (Hd : Concurrent.done s = true) by (apply (Hp t); now rewrite Et).
    start_inv.
    + intros u Hu. moved u t; [discriminate|].
      assert (u = t) by
          (apply (critical_unique s); auto; now rewrite Et).
      contradiction.
    + thread u t.
    + intros u _. exact Hd.
    + exact Hret.
    + congruence.
    + exact Hrd.
  - (* AtReturn *)
    assert (Hd : Concurrent.done s = true) by (apply (Hp t); now rewrite Et).
    start_inv.
    + thread u t.
    + thread u t.
    + intros u _. exact Hd.
    + intros p Hin. apply in_app_or in Hin as [Hin | [<- | []]]; auto.
    + congruence.
    + exact Hrd.
Qed.

Lemma Inv_run (schedule : list Concurrent.event) (s : Concurrent.state) :
  Concurrent.Inv s -> Concurrent.Inv (Concurrent.run s schedule).
Proof.
  revert s; induction schedule as [|e schedule IH]; intros s I;
    [exact I|].
  apply IH. now apply Inv_step.
Qed.

(** Once the flag is set, no step changes it, the path or the record of
    reads. *)
Lemma done_step (s : Concurrent.state) (e : Concurrent.event) :
  Concurrent.Inv s -> Concurrent.done s = true ->
  Concurrent.done (Concurrent.step s e) = true
  /\ Concurrent.path (Concurrent.step s e) = Concurrent.path s
  /\ Concurrent.reads (Concurrent.step s e) = Concurrent.reads s.
Proof.
  intros I Hd. destruct e as [t | fs]; [|now repeat split].
  pose proof (Concurrent.inv_run s I t) as Hr.
  unfold Concurrent.step, Concurrent.stepThread.
  destruct (Concurrent.st_pcs s t) eqn:Et;
    try (specialize (Hr eq_refl); congruence).
  - now repeat split.
  - unfold Concurrent.done in Hd. rewrite Hd. now repeat split.
  - destruct (Concurrent.st_mutex s); now repeat split.
  - unfold Concurrent.done in Hd. rewrite Hd. now repeat split.
  - now repeat split.
  - now repeat split.
Qed.

Lemma done_run (schedule : list Concurrent.event) (s : Concurrent.state) :
  Concurrent.Inv s -> Concurrent.done s = true ->
  Concurrent.done (Concurrent.run s schedule) = true
  /\ Concurrent.path (Concurrent.run s schedule) = Concurrent.path s
  /\ Concurrent.reads (Concurrent.run s schedule) = Concurrent.reads s.
Proof.
  revert s; induction schedule as [|e schedule IH]; intros s I Hd;
    [now repeat split|].
  destruct (done_step s e I Hd) as (H1 & H2 & H3).
  destruct (IH (Concurrent.step s e) (Inv_step s e I) H1) as (H4 & H5 & H6).
  cbn [Concurrent.run fold_left] in *. unfold Concurrent.run in *.
  rewrite H5, H6. now repeat split.
Qed.


Lemma run_cons (s : Concurrent.state) (e : Concurrent.event)
  (es : list Concurrent.event) :
  Concurrent.run s (e :: es) = Concurrent.run (Concurrent.step s e) es.
Proof. reflexivity. Qed.

(** Runs the next step of the schedule from a state given field by
    field. *)
Ltac next_step :=
  rewrite run_cons;
  cbn [Concurrent.step]; unfold Concurrent.stepThread;
  cbn [Concurrent.st_pcs Concurrent.st_world Concurrent.st_mutex
         Concurrent.st_returned];
  rewrite ?upd_same.

(** A goroutine that runs a call alone does what [Path] does. *)
Lemma solo_call (s : Concurrent.state) (t : nat) :
  Concurrent.st_pcs s t = Concurrent.Idle ->
  Concurrent.st_mutex s = None ->
  exists k,
    let s' := Concurrent.run s (repeat (Concurrent.Run t) k) in
    Concurrent.st_world s' = snd (Path (Concurrent.st_world s))
    /\ Concurrent.st_returned s'
       = (Concurrent.st_returned s ++ [fst (Path (Concurrent.st_world s))])%list
    /\ Concurrent.st_pcs s' t = Concurrent.Idle
    /\ Concurrent.st_mutex s' = None.
Proof.
  intros Hidle Hmu.
  destruct s as [w mu pcs ret]. cbn [Concurrent.st_pcs Concurrent.st_mutex
    Concurrent.st_world Concurrent.st_returned] in *. subst mu.
  destruct (detectSystemdResolvConfOnce w) eqn:Hd.
  - exists 3%nat. rewrite Path_later by exact Hd. cbn [repeat].
    next_step. rewrite Hidle.
    next_step. rewrite Hd.
    next_step.
    cbv zeta. cbn [Concurrent.run fold_left Concurrent.st_pcs
      Concurrent.st_world Concurrent.st_mutex Concurrent.st_returned
      fst snd].
    rewrite upd_same. now repeat split.
  - exists 9%nat. rewrite Path_first by exact Hd. cbn [repeat].
    next_step. rewrite Hidle.
    next_step. rewrite Hd.
    next_step.
    next_step. rewrite Hd.
    next_step. unfold ioutil.ReadFile.
    next_step. rewrite detect_rest_world.
    cbn [files filesRead detectSystemdResolvConfOnce
           pathAfterSystemdDetection].
    next_step.
    next_step.
    next_step.
    cbv zeta. cbn [Concurrent.run fold_left Concurrent.st_pcs
      Concurrent.st_world Concurrent.st_mutex Concurrent.st_returned
      Concurrent.setDone files filesRead detectSystemdResolvConfOnce
      pathAfterSystemdDetection fst snd].
    rewrite upd_same. now repeat split.
Qed.
(** C5: the detection runs at most once.  In a row of calls, whatever the
    files become in between, the default file is read by the first call
    only and every call returns what the first returned.  With goroutines
    calling [Path] concurrently under any schedule, the file is read at most
    once, all the values returned are the same, and once a call has
    returned nothing a later step does reads a file or changes the path; a
    goroutine running alone does what [Path] does. *)
Theorem C5_Path_detects_at_most_once :
  (forall (fs : FS) (env : nat -> FS) (n : nat),
      let r := PathTimes (S n) env (start fs) in
      fst r = repeat (fst (Path (start (env (S n))))) (S n)
      /\ filesRead (snd r) = [defaultPath]
      /\ pathAfterSystemdDetection (snd r)
         = fst (Path (start (env (S n)))))
  /\ (forall (w : world) (env : nat -> FS) (n : nat),
         detectSystemdResolvConfOnce w = true ->
         fst (PathTimes n env w) = repeat (pathAfterSystemdDetection w) n
         /\ filesRead (snd (PathTimes n env w)) = filesRead w)
  /\ (forall (fs : FS) (schedule : list Concurrent.event),
         let s := Concurrent.run (Concurrent.initial fs) schedule in
         (List.length (Concurrent.reads s) <= 1)%nat
         /\ (forall p q,
                In p (Concurrent.st_returned s) ->
                In q (Concurrent.st_returned s) -> p = q))
  /\ (forall (fs : FS) (schedule more : list Concurrent.event),
         let s := Concurrent.run (Concurrent.initial fs) schedule in
         let s' := Concurrent.run s more in
         Concurrent.st_returned s <> [] ->
         Concurrent.reads s' = Concurrent.reads s
         /\ Concurrent.path s' = Concurrent.path s
         /\ (forall q, In q (Concurrent.st_returned s') ->
                       q = Concurrent.path s))
  /\ (forall (s : Concurrent.state) (t : nat),
         Concurrent.st_pcs s t = Concurrent.Idle ->
         Concurrent.st_mutex s = None ->
         exists k,
           let s' := Concurrent.run s (repeat (Concurrent.Run t) k) in
           Concurrent.st_world s' = snd (Path (Concurrent.st_world s))
           /\ Concurrent.st_returned s'
              = (Concurrent.st_returned s
                   ++ [fst (Path (Concurrent.st_world s))])%list).
Proof.
  split; [|split; [|split; [|split]]].
  - intros fs env n. cbv zeta. cbn [PathTimes].
    change {| files := env (S n);
              filesRead := filesRead (start fs);
              detectSystemdResolvConfOnce :=
                detectSystemdResolvConfOnce (start fs);
              pathAfterSystemdDetection :=
                pathAfterSystemdDetection (start fs) |}
      with (start (env (S n))).
    rewrite Path_first by reflexivity.
    match goal with
    | |- context [PathTimes n env ?w1] =>
        destruct (PathTimes_later n env w1 eq_refl) as (H1 & H2 & _ & H4);
        destruct (PathTimes n env w1) as [ps w2]
    end.
    cbn [fst snd filesRead pathAfterSystemdDetection start files] in *.
    rewrite H1, H2, H4. now repeat split.
  - intros w env n Hd.
    destruct (PathTimes_later n env w Hd) as (H1 & H2 & _). now split.
  - intros fs schedule. cbv zeta.
    pose proof (Inv_run schedule _ (Inv_initial fs)) as I.
    split; [apply (Concurrent.inv_reads _ I)|].
    intros p q Hp Hq.
    destruct (Concurrent.inv_ret _ I p Hp) as [_ ->].
    destruct (Concurrent.inv_ret _ I q Hq) as [_ ->]. reflexivity.
  - intros fs schedule more. cbv zeta. intros Hne.
    pose proof (Inv_run schedule _ (Inv_initial fs)) as I.
    set (s := Concurrent.run (Concurrent.initial fs) schedule) in *.
    assert (Hd : Concurrent.done s = true).
    { destruct (Concurrent.st_returned s) as [|p ps] eqn:E;
        [contradiction|].
      apply (Concurrent.inv_ret _ I p). rewrite E. now left. }
    destruct (done_run more s I Hd) as (_ & H2 & H3).
    split; [exact H3|]. split; [exact H2|].
    intros q Hq. rewrite <- H2.
    apply (Concurrent.inv_ret _ (Inv_run more s I) q Hq).
  - intros s t Hidle Hmu.
    destruct (solo_call s t Hidle Hmu) as (k & H1 & H2 & _).
    exists k. now split.
Qed.

(** ** [TrimSpace] trims white space, and nothing else *)

Lemma app_assoc_string (a b c : string) : (a ++ b) ++ c = a ++ b ++ c.
Proof. induction a as [|x a IH]; simpl; [reflexivity | now rewrite IH]. Qed.

Lemma app_nil_r_string (a : string) : a ++ "" = a.
Proof. induction a as [|x a IH]; simpl; [reflexivity | now rewrite IH]. Qed.

Lemma rev_append_app (s acc : string) :
  strings.rev_append s acc = strings.rev s ++ acc.
Proof.
  unfold strings.rev. revert acc; induction s as [|c s IH]; intros acc;
    simpl; [reflexivity|].
  rewrite IH, (IH (String c "")), app_assoc_string. reflexivity.
Qed.

Lemma rev_cons (c : ascii) (s : string) :
  strings.rev (String c s) = strings.rev s ++ String c "".
Proof. unfold strings.rev at 1. simpl. apply rev_append_app. Qed.

Lemma rev_app (a b : string) :
  strings.rev (a ++ b) = strings.rev b ++ strings.rev a.
Proof.
  induction a as [|c a IH]; simpl.
  - now rewrite app_nil_r_string.
  - now rewrite !rev_cons, IH, app_assoc_string.
Qed.

Lemma rev_involutive_string (s : string) : strings.rev (strings.rev s) = s.
Proof.
  induction s as [|c s IH]; [reflexivity|].
  rewrite rev_cons, rev_app, IH. reflexivity.
Qed.

Lemma length_rev_string (s : string) :
  String.length (strings.rev s) = String.length s.
Proof.
  induction s as [|c s IH]; [reflexivity|].
  rewrite rev_cons, length_app_string, IH. simpl. lia.
Qed.

Lemma space2_not_ascii (a b : Z) :
  strings.space2 a b = true -> strings.asciiSpace a = false.
Proof.
  unfold strings.space2. destruct (Z.eqb_spec a 0xC2) as [-> | _];
    [reflexivity | discriminate].
Qed.

Lemma space3_not_shorter (a b c : Z) :
  strings.space3 a b c = true ->
  strings.asciiSpace a = false /\ strings.space2 a b = false.
Proof.
  unfold strings.space3, strings.space2.
  destruct (Z.eqb_spec a 0xE1) as [-> | _];
    [intros _; now split|].
  destruct (Z.eqb_spec a 0xE2) as [-> | _];
    [intros _; now split|].
  destruct (Z.eqb_spec a 0xE3) as [-> | _];
    [intros _; now split | discriminate].
Qed.

(** What [leadingSpace] finds is one white-space rune at the front. *)
Lemma leadingSpace_rune (s : string) (w : nat) :
  strings.leadingSpace s = S w ->
  space_rune (strings.take (S w) s) /\ (S w <= String.length s)%nat.
Proof.
  unfold space_rune, strings.leadingSpace.
  destruct s as [|c1 s]; [discriminate|].
  destruct (strings.asciiSpace (ord c1)) eqn:E1.
  { intros [= <-]. simpl. rewrite E1. repeat split; [discriminate | lia]. }
  destruct s as [|c2 s]; [discriminate|].
  destruct (strings.space2 (ord c1) (ord c2)) eqn:E2.
  { intros [= <-]. simpl. rewrite E1, E2.
    repeat split; [discriminate | lia]. }
  destruct s as [|c3 s]; [discriminate|].
  destruct (strings.space3 (ord c1) (ord c2) (ord c3)) eqn:E3;
    [|discriminate].
  intros [= <-]. simpl. rewrite E1, E2, E3.
  repeat split; [discriminate | lia].
Qed.

(** What [trailingSpace] finds is one white-space rune at the back. *)
Lemma trailingSpace_rune (r : string) (w : nat) :
  strings.trailingSpace r = S w ->
  space_rune (strings.rev (strings.take (S w) r))
  /\ (S w <= String.length r)%nat.
Proof.
  unfold space_rune, strings.trailingSpace.
  destruct r as [|c1 r]; [discriminate|].
  destruct (strings.asciiSpace (ord c1)) eqn:E1.
  { intros [= <-]. cbn. rewrite E1. repeat split; [discriminate | lia]. }
  destruct r as [|c2 r]; [discriminate|].
  destruct (strings.space2 (ord c2) (ord c1)) eqn:E2.
  { intros [= <-]. cbn. rewrite (space2_not_ascii _ _ E2), E2.
    repeat split; [discriminate | lia]. }
  destruct r as [|c3 r]; [discriminate|].
  destruct (strings.space3 (ord c3) (ord c2) (ord c1)) eqn:E3;
    [|discriminate].
  intros [= <-]. cbn.
  destruct (space3_not_shorter _ _ _ E3) as [-> ->]. rewrite E3.
  repeat split; [discriminate | lia].
Qed.

(** The white-space rune a string starts with is still there when the
    string goes on. *)
Lemma leadingSpace_app (a b : string) (w : nat) :
  strings.leadingSpace a = S w -> strings.leadingSpace (a ++ b) = S w.
Proof.
  unfold strings.leadingSpace.
  destruct a as [|c1 a]; [discriminate|]. simpl.
  destruct (strings.asciiSpace (ord c1)); [easy|].
  destruct a as [|c2 a]; [discriminate|]. simpl.
  destruct (strings.space2 (ord c1) (ord c2)); [easy|].
  destruct a as [|c3 a]; [discriminate|]. simpl.
  now destruct (strings.space3 (ord c1) (ord c2) (ord c3)).
Qed.

Lemma white_app (a b : string) : white a -> white b -> white (a ++ b).
Proof.
  induction 1 as [|x y Hx Hy IH]; intros Hb; [exact Hb|].
  rewrite app_assoc_string. apply white_rune; auto.
Qed.

Lemma white_one (a : string) : space_rune a -> white a.
Proof.
  intros H. rewrite <- (app_nil_r_string a).
  apply white_rune; [exact H | constructor].
Qed.

(** What [trimWhile] removes, rune by rune, and where it stops. *)
Lemma trimWhile_leading (fuel : nat) (s : string) :
  (String.length s <= fuel)%nat ->
  exists pre,
    s = pre ++ strings.trimWhile strings.leadingSpace fuel s
    /\ white pre
    /\ strings.leadingSpace (strings.trimWhile strings.leadingSpace fuel s)
       = O.
Proof.
  revert s; induction fuel as [|fuel IH]; intros s Hlen.
  - destruct s; [|simpl in Hlen; lia].
    exists "". repeat split. constructor.
  - cbn [strings.trimWhile].
    destruct (strings.leadingSpace s) as [|w] eqn:E.
    + exists "". repeat split; [constructor | exact E].
    + destruct (leadingSpace_rune s w E) as [Hr Hw].
      destruct (IH (strings.drop (S w) s)) as (pre & H1 & H2 & H3).
      { rewrite length_drop. lia. }
      exists (strings.take (S w) s ++ pre). repeat split.
      * rewrite app_assoc_string, <- H1. symmetry. apply take_drop_id.
      * apply white_rune; assumption.
      * exact H3.
Qed.

Lemma trimWhile_trailing (fuel : nat) (r : string) :
  (String.length r <= fuel)%nat ->
  exists pre,
    r = pre ++ strings.trimWhile strings.trailingSpace fuel r
    /\ white (strings.rev pre)
    /\ strings.trailingSpace
         (strings.trimWhile strings.trailingSpace fuel r) = O.
Proof.
  revert r; induction fuel as [|fuel IH]; intros r Hlen.
  - destruct r; [|simpl in Hlen; lia].
    exists "". repeat split. constructor.
  - cbn [strings.trimWhile].
    destruct (strings.trailingSpace r) as [|w] eqn:E.
    + exists "". repeat split; [constructor | exact E].
    + destruct (trailingSpace_rune r w E) as [Hr Hw].
      destruct (IH (strings.drop (S w) r)) as (pre & H1 & H2 & H3).
      { rewrite length_drop. lia. }
      exists (strings.take (S w) r ++ pre). repeat split.
      * rewrite app_assoc_string, <- H1. symmetry. apply take_drop_id.
      * rewrite rev_app. apply white_app; [exact H2|].
        now apply white_one.
      * exact H3.
Qed.

(** [TrimSpace] cuts white space on both sides, all of it. *)
Lemma TrimSpace_trimmed (s : string) : trimmed_of s (strings.TrimSpace s).
Proof.
  unfold trimmed_of, strings.TrimSpace, strings.TrimRightSpace,
    strings.TrimLeftSpace.
  destruct (trimWhile_leading (String.length s) s (le_n _))
    as (pre & H1 & H2 & H3).
  set (t := strings.trimWhile strings.leadingSpace (String.length s) s) in *.
  destruct (trimWhile_trailing (String.length t) (strings.rev t))
    as (post & H4 & H5 & H6).
  { rewrite length_rev_string. lia. }
  set (x := strings.trimWhile strings.trailingSpace (String.length t)
              (strings.rev t)) in *.
  assert (Ht : t = strings.rev x ++ strings.rev post).
  { rewrite <- rev_app, <- H4. symmetry. apply rev_involutive_string. }
  exists pre, (strings.rev post). repeat split.
  - now rewrite <- Ht.
  - exact H2.
  - exact H5.
  - destruct (strings.leadingSpace (strings.rev x)) as [|w] eqn:E;
      [reflexivity|].
    apply (leadingSpace_app _ (strings.rev post)) in E.
    rewrite <- Ht in E. congruence.
  - now rewrite rev_involutive_string.
Qed.

(** C9: [getLines] returns one element per newline-separated line of the
    input, in order: the line truncated at the first occurrence of the
    comment marker, then trimmed of leading and trailing white space.  A
    text with [n] line feeds gives [n + 1] elements; blank lines and lines
    that start with the marker give the empty string and stay in the
    sequence. *)
Theorem C9_getLines_one_trimmed_line_per_line (input commentMarker : string) :
  getLines input commentMarker
  = map (fun line => strings.TrimSpace (truncate_at commentMarker line))
      (lines_of input)
  /\ List.length (getLines input commentMarker) = S (count_LF input)
  /\ String.concat nl (lines_of input) = input
  /\ (forall line, In line (lines_of input) -> count_LF line = O)
  /\ (forall line,
         let kept := truncate_at commentMarker line in
         strings.take (String.length kept) line = kept
         /\ (forall k, (k < String.length kept)%nat ->
                       ~ occurs_at commentMarker line k)
         /\ (kept = line
             \/ occurs_at commentMarker line (String.length kept)))
  /\ (forall s, trimmed_of s (strings.TrimSpace s))
  /\ (forall i line,
         nth_error (lines_of input) i = Some line ->
         line = "" \/ strings.HasPrefix line commentMarker = true ->
         nth_error (getLines input commentMarker) i = Some "").
Proof.
  split; [apply getLines_map|].
  split; [rewrite getLines_map, length_map; apply length_lines_of|].
  split; [apply concat_lines_of|].
  split; [intros line; apply lines_of_no_LF|].
  split; [intros line; apply truncate_at_first|].
  split; [exact TrimSpace_trimmed|].
  intros i line Hn Hline.
  rewrite getLines_map, nth_error_map, Hn. cbn [option_map].
  f_equal.
  assert (E : truncate_at commentMarker line = "").
  { destruct Hline as [-> | H].
    - simpl. now destruct (strings.HasPrefix "" commentMarker).
    - destruct line; simpl; now rewrite H. }
  now rewrite E.
Qed.

(** ** The hash *)

Lemma length_be32 (x : Z) : List.length (sha256.be32 x) = 4%nat.
Proof. reflexivity. Qed.

(** A digest is 32 bytes. *)
Lemma length_Sum256 (data : list byte) :
  List.length (sha256.Sum256 data) = 32%nat.
Proof.
  unfold sha256.Sum256. cbv zeta. rewrite !length_app, !length_be32.
  reflexivity.
Qed.

Lemma length_EncodeToString (src : list byte) :
  String.length (hex.EncodeToString src) = (2 * List.length src)%nat.
Proof.
  induction src as [|v src IH]; simpl; [reflexivity|].
  rewrite IH. lia.
Qed.

Lemma hex_digits_of_byte (v : byte) :
  lower_hex (hex.digit (Z.shiftr (byte_val v) 4)) = true
  /\ lower_hex (hex.digit (Z.land (byte_val v) 0x0f)) = true.
Proof. destruct v; vm_compute; split; reflexivity. Qed.

(** [EncodeToString] writes lower-case hexadecimal digits only. *)
Lemma EncodeToString_lower_hex (src : list byte) :
  all_chars lower_hex (hex.EncodeToString src) = true.
Proof.
  induction src as [|v src IH]; [reflexivity|].
  cbn [hex.EncodeToString all_chars].
  destruct (hex_digits_of_byte v) as [-> ->]. exact IH.
Qed.

(** The hash string: the prefix, then 64 lower-case hexadecimal digits. *)
Lemma hash_of_format (raw : list byte) :
  hash_of raw = "sha256:" ++ hex.EncodeToString (sha256.Sum256 raw)
  /\ String.length (hex.EncodeToString (sha256.Sum256 raw)) = 64%nat
  /\ all_chars lower_hex (hex.EncodeToString (sha256.Sum256 raw)) = true
  /\ String.length (hash_of raw) = 71%nat.
Proof.
  split; [reflexivity|].
  assert (H : String.length (hex.EncodeToString (sha256.Sum256 raw))
              = 64%nat)
    by (rewrite length_EncodeToString, length_Sum256; reflexivity).
  split; [exact H|]. split; [apply EncodeToString_lower_hex|].
  unfold hash_of. rewrite length_app_string, H. reflexivity.
Qed.

(** A snapshot carries the hash of the bytes it carries. *)
Lemma GetSpecific_Hash (path : string) (w : world) (f : File) :
  fst (GetSpecific path w) = (Some f, None) ->
  files w path = (Content f, None) /\ Hash f = hash_of (Content f).
Proof.
  rewrite GetSpecific_cases.
  destruct (files w path) as [resolv [e|]]; [discriminate|].
  destruct (getNameservers (string_of_list_byte resolv)) as [ns [e|]];
    [discriminate|].
  intros [= <-]. now split.
Qed.

(** *** More files than digests *)

Lemma byte_val_range (b : byte) : 0 <= byte_val b < 256.
Proof.
  unfold byte_val. pose proof (Byte.to_N_bounded b). lia.
Qed.

Lemma byte_val_inj (a b : byte) : byte_val a = byte_val b -> a = b.
Proof.
  unfold byte_val. intros H. apply N2Z.inj in H.
  pose proof (Byte.of_to_N a) as Ha. rewrite H, Byte.of_to_N in Ha.
  now injection Ha.
Qed.

Lemma digest_value_range (d : list byte) :
  0 <= digest_value d < 256 ^ Z.of_nat (List.length d).
Proof.
  induction d as [|b d IH]; [simpl; lia|].
  cbn [digest_value List.length]. rewrite Nat2Z.inj_succ, Z.pow_succ_r by lia.
  pose proof (byte_val_range b). lia.
Qed.

Lemma digest_value_inj (d1 : list byte) :
  forall d2, List.length d1 = List.length d2 ->
             digest_value d1 = digest_value d2 -> d1 = d2.
Proof.
  induction d1 as [|a d1 IH]; intros [|b d2] Hlen Hv; try discriminate;
    [reflexivity|].
  cbn [digest_value] in Hv.
  pose proof (byte_val_range a). pose proof (byte_val_range b).
  assert (byte_val a = byte_val b /\ digest_value d1 = digest_value d2)
    as [Hab Hd] by lia.
  f_equal; [now apply byte_val_inj|].
  apply IH; [now injection Hlen | exact Hd].
Qed.

Lemma bits_inj (k : nat) :
  forall n m, 0 <= n < 2 ^ Z.of_nat k -> 0 <= m < 2 ^ Z.of_nat k ->
              bits k n = bits k m -> n = m.
Proof.
  induction k as [|k IH]; intros n m Hn Hm E.
  - simpl in Hn, Hm. lia.
  - rewrite Nat2Z.inj_succ, Z.pow_succ_r in Hn, Hm by lia.
    cbn [bits] in E. injection E as Ehd Etl.
    pose proof (Z.div2_odd n) as Dn. pose proof (Z.div2_odd m) as Dm.
    assert (Eodd : Z.odd n = Z.odd m)
      by (destruct (Z.odd n), (Z.odd m); try reflexivity; discriminate).
    assert (Ediv : Z.div2 n = Z.div2 m).
    { apply IH; [| |exact Etl]; rewrite Z.div2_div.
      - split; [apply Z.div_pos; lia | apply Z.div_lt_upper_bound; lia].
      - split; [apply Z.div_pos; lia | apply Z.div_lt_upper_bound; lia]. }
    rewrite Dn, Dm, Eodd, Ediv. reflexivity.
Qed.

Lemma count_LF_bits (k : nat) (n : Z) : count_LF (bits k n) = O.
Proof.
  revert n; induction k as [|k IH]; intros n; [reflexivity|].
  cbn [bits count_LF]. rewrite IH. now destruct (Z.odd n).
Qed.

Lemma lines_of_single (s : string) : count_LF s = O -> lines_of s = [s].
Proof.
  induction s as [|c s IH]; [reflexivity|].
  cbn [count_LF lines_of]. destruct (Ascii.eqb c LF); [discriminate|].
  intros H. now rewrite IH.
Qed.

(** A file that is one comment line is read with success. *)
Lemma GetSpecific_numbered_file (n : Z) (path : string) :
  fst (GetSpecific path (start (always (numbered_file n))))
  = (Some {| Content := numbered_file n;
             Hash := hash_of (numbered_file n);
             Nameservers := [];
             Options := [] |}, None).
Proof.
  rewrite GetSpecific_cases. cbn [start files always].
  unfold numbered_file. rewrite string_of_list_byte_of_string.
  assert (E : getLines ("#" ++ bits 257 n) commentMark = [""]).
  { rewrite getLines_map, lines_of_single.
    - cbn [map]. unfold commentMark.
      change ("#" ++ bits 257 n) with (String "#" (bits 257 n)).
      cbn [truncate_at]. rewrite HasPrefix_char. reflexivity.
    - change ("#" ++ bits 257 n) with (String "#" (bits 257 n)).
      cbn [count_LF]. now rewrite count_LF_bits. }
  unfold getNameservers, getOptions. rewrite E. reflexivity.
Qed.

Lemma numbered_file_inj (n m : Z) :
  0 <= n < 2 ^ Z.of_nat 257 -> 0 <= m < 2 ^ Z.of_nat 257 ->
  numbered_file n = numbered_file m -> n = m.
Proof.
  intros Hn Hm E. unfold numbered_file in E.
  apply (f_equal string_of_list_byte) in E.
  rewrite !string_of_list_byte_of_string in E.
  apply (f_equal (strings.drop 1)) in E.
  change (bits 257 n = bits 257 m) in E.
  exact (bits_inj 257 n m Hn Hm E).
Qed.

(** No function from [0 .. n] to [0 .. n - 1] is one-to-one. *)
Lemma pigeonhole_Z (n : Z) :
  0 <= n ->
  forall g : Z -> Z,
    (forall i, 0 <= i <= n -> 0 <= g i < n) ->
    (forall i j, 0 <= i <= n -> 0 <= j <= n -> g i = g j -> i = j) ->
    False.
Proof.
  intros Hn. pattern n. apply natlike_ind; [| |exact Hn]; clear n Hn.
  - intros g Hg _. specialize (Hg 0). lia.
  - intros n Hn IH g Hg Hinj.
    set (v := g (Z.succ n)).
    assert (Hv : 0 <= v < Z.succ n) by (apply Hg; lia).
    assert (Hne : forall i, 0 <= i <= n -> g i <> v).
    { intros i Hi E. apply Hinj in E; lia. }
    apply (IH (fun i => if g i <? v then g i else g i - 1)).
    + intros i Hi. pose proof (Hg i) as H1. pose proof (Hne i Hi) as H2.
      destruct (Z.ltb_spec (g i) v); lia.
    + intros i j Hi Hj E.
      pose proof (Hg i) as G1. pose proof (Hg j) as G2.
      pose proof (Hne i Hi) as N1. pose proof (Hne j Hj) as N2.
      apply Hinj; try lia.
      destruct (Z.ltb_spec (g i) v), (Z.ltb_spec (g j) v); lia.
Qed.

(** Two different files with the same SHA-256 cannot both be told apart
    by their hashes: there are more files than digests. *)
Lemma Sum256_not_injective :
  ~ (forall n m, 0 <= n <= 2 ^ 256 -> 0 <= m <= 2 ^ 256 ->
                 sha256.Sum256 (numbered_file n)
                 = sha256.Sum256 (numbered_file m) -> n = m).
Proof.
  intros H.
  apply (pigeonhole_Z (2 ^ 256) ltac:(lia)
           (fun i => digest_value (sha256.Sum256 (numbered_file i)))).
  - intros i _.
    pose proof (digest_value_range (sha256.Sum256 (numbered_file i))) as R.
    rewrite length_Sum256 in R.
    change (256 ^ Z.of_nat 32) with (2 ^ 256) in R. exact R.
  - intros i j Hi Hj E. apply H; [exact Hi | exact Hj |].
    apply digest_value_inj; [now rewrite !length_Sum256 | exact E].
Qed.

(** The model of SHA-256 on the test vectors of the standard, through
    [hashData]. *)
Lemma hashData_test_vectors :
  hashData (bytes.NewReader [])
  = ("sha256:e3b0c44298fc1c149afbf4c8996fb92427ae41e4649b934ca495991b7852b855",
     None)
  /\ hashData (bytes.NewReader (list_byte_of_string "abc"))
     = ("sha256:ba7816bf8f01cfea414140de5dae2223b00361a396177a9cb410ff61f20015ad",
        None)
  /\ hashData
       (bytes.NewReader
          (list_byte_of_string
             "abcdbcdecdefdefgefghfghighijhijkijkljklmklmnlmnomnopnopq"))
     = ("sha256:248d6a61d20638b8e5c026930c3e6039a33ce45964ff2167f6ecedd419db06c1",
        None).
Proof. repeat split; vm_compute; reflexivity. Qed.

(** C6, as stated, fails: it is not so that the hashes of two snapshots are
    equal exactly when their raw bytes are.  There are more files than
    digests, so two readable files with different bytes have the same
    [Hash]. *)
Lemma C6_counterexample_two_files_one_hash :
  ~ (forall (w1 w2 : world) (p1 p2 : string) (f1 f2 : File),
        fst (GetSpecific p1 w1) = (Some f1, None) ->
        fst (GetSpecific p2 w2) = (Some f2, None) ->
        (Hash f1 = Hash f2 <-> Content f1 = Content f2)).
Proof.
  intros H. apply Sum256_not_injective. intros n m Hn Hm E.
  assert (Hlt : 2 ^ 256 < 2 ^ Z.of_nat 257)
    by (apply Z.pow_lt_mono_r; lia).
  apply numbered_file_inj; [lia | lia |].
  apply (H (start (always (numbered_file n)))
           (start (always (numbered_file m))) defaultPath defaultPath
           {| Content := numbered_file n;
              Hash := hash_of (numbered_file n);
              Nameservers := []; Options := [] |}
           {| Content := numbered_file m;
              Hash := hash_of (numbered_file m);
              Nameservers := []; Options := [] |}
           (GetSpecific_numbered_file n defaultPath)
           (GetSpecific_numbered_file m defaultPath)).
  cbn [Hash]. unfold hash_of. now rewrite E.
Qed.

(** C6, amended: the [Hash] of a snapshot is ["sha256:"] followed by the 64
    lower-case hexadecimal digits of the SHA-256 digest of the raw bytes of
    the file, whatever they parse to; snapshots with the same bytes have
    the same hash, so a hash that changed tells that a byte changed. *)
Theorem C6_Hash_is_sha256_of_raw_bytes (w : world) (path : string)
  (f : File) :
  fst (GetSpecific path w) = (Some f, None) ->
  files w path = (Content f, None)
  /\ Hash f = "sha256:" ++ hex.EncodeToString (sha256.Sum256 (Content f))
  /\ List.length (sha256.Sum256 (Content f)) = 32%nat
  /\ String.length (hex.EncodeToString (sha256.Sum256 (Content f)))
     = 64%nat
  /\ all_chars lower_hex (hex.EncodeToString (sha256.Sum256 (Content f)))
     = true
  /\ (forall w' path' f',
         fst (GetSpecific path' w') = (Some f', None) ->
         Content f' = Content f -> Hash f' = Hash f)
  /\ (forall w' path' f',
         fst (GetSpecific path' w') = (Some f', None) ->
         Hash f' <> Hash f -> Content f' <> Content f).
Proof.
  intros Hf. destruct (GetSpecific_Hash path w f Hf) as [H1 H2].
  destruct (hash_of_format (Content f)) as (F1 & F2 & F3 & _).
  split; [exact H1|]. split; [now rewrite H2|].
  split; [apply length_Sum256|]. split; [exact F2|]. split; [exact F3|].
  assert (Hsame : forall w' path' f',
             fst (GetSpecific path' w') = (Some f', None) ->
             Content f' = Content f -> Hash f' = Hash f).
  { intros w' path' f' Hf' E.
    destruct (GetSpecific_Hash path' w' f' Hf') as [_ H3].
    now rewrite H2, H3, E. }
  split; [exact Hsame|].
  intros w' path' f' Hf' Hne E. apply Hne. now apply (Hsame w' path').
Qed.

(** C6, on the scenario file. *)
Lemma C6_Hash_is_sha256_of_raw_bytes_witness :
  files (start (one_file defaultPath scenario_file)) defaultPath
  = (Content scenario_snapshot, None)
  /\ Hash scenario_snapshot
     = "sha256:"
       ++ hex.EncodeToString (sha256.Sum256 (Content scenario_snapshot))
  /\ List.length (sha256.Sum256 (Content scenario_snapshot)) = 32%nat
  /\ String.length
       (hex.EncodeToString (sha256.Sum256 (Content scenario_snapshot)))
     = 64%nat
  /\ all_chars lower_hex
       (hex.EncodeToString (sha256.Sum256 (Content scenario_snapshot)))
     = true
  /\ (forall w' path' f',
         fst (GetSpecific path' w') = (Some f', None) ->
         Content f' = Content scenario_snapshot ->
         Hash f' = Hash scenario_snapshot)
  /\ (forall w' path' f',
         fst (GetSpecific path' w') = (Some f', None) ->
         Hash f' <> Hash scenario_snapshot ->
         Content f' <> Content scenario_snapshot).
Proof.
  apply (C6_Hash_is_sha256_of_raw_bytes
           (start (one_file defaultPath scenario_file)) defaultPath
           scenario_snapshot).
  rewrite GetSpecific_cases. reflexivity.
Defined.

(** * Further properties of the package *)

(** ** Lines compose *)

Lemma count_LF_app (a b : string) :
  count_LF (a ++ b) = (count_LF a + count_LF b)%nat.
Proof.
  induction a as [|c a IH]; simpl; [reflexivity|]. rewrite IH. lia.
Qed.

(** The lines of two texts joined by a line feed are the lines of the one,
    then the lines of the other. *)
Lemma lines_of_app_nl (a b : string) :
  lines_of (a ++ nl ++ b) = (lines_of a ++ lines_of b)%list.
Proof.
  induction a as [|c a IH]; [reflexivity|].
  cbn [append lines_of]. rewrite IH.
  destruct (Ascii.eqb c LF); [reflexivity|].
  destruct (lines_of a) as [|l ls] eqn:E;
    [now destruct (lines_of_not_nil a) | reflexivity].
Qed.

(** Text without line feed appended to a text goes to its last line. *)
Lemma lines_of_app_last (a b : string) :
  count_LF b = O ->
  lines_of (a ++ b)
  = (removelast (lines_of a) ++ [(last (lines_of a) "" ++ b)%string])%list.
Proof.
  intros Hb. induction a as [|c a IH].
  - simpl. now apply lines_of_single.
  - cbn [append lines_of]. rewrite IH.
    pose proof (lines_of_not_nil a) as Hne.
    destruct (Ascii.eqb c LF).
    + destruct (lines_of a) as [|l ls]; [contradiction | reflexivity].
    + destruct (lines_of a) as [|l [|l' ls]]; [contradiction | reflexivity |].
      reflexivity.
Qed.

Lemma getLines_app_nl (a b commentMarker : string) :
  getLines (a ++ nl ++ b) commentMarker
  = (getLines a commentMarker ++ getLines b commentMarker)%list.
Proof.
  rewrite !getLines_map, lines_of_app_nl. apply map_app.
Qed.

(** X1: [getLines] of two texts joined by a line feed is the lines of the
    first followed by the lines of the second; the empty text has one
    line, the empty one, so a text that ends with a line feed has an empty
    last line. *)
Theorem X1_getLines_app_newline (a b commentMarker : string) :
  getLines (a ++ nl ++ b) commentMarker
  = (getLines a commentMarker ++ getLines b commentMarker)%list
  /\ getLines "" commentMarker = [""]
  /\ getLines (a ++ nl) commentMarker
     = (getLines a commentMarker ++ [""])%list.
Proof.
  assert (E : getLines "" commentMarker = [""]).
  { rewrite getLines_map. cbn [lines_of map truncate_at].
    now destruct (strings.HasPrefix "" commentMarker). }
  split; [apply getLines_app_nl|]. split; [exact E|].
  rewrite <- E, <- getLines_app_nl. now rewrite app_nil_r_string.
Qed.

(** ** What a line of [getLines] looks like *)

Lemma drop_app_le (k : nat) (a b : string) :
  (k <= String.length a)%nat ->
  strings.drop k (a ++ b) = strings.drop k a ++ b.
Proof.
  revert a; induction k as [|k IH]; intros a Hk; [reflexivity|].
  destruct a as [|c a]; simpl in *; [lia|]. apply IH. lia.
Qed.

Lemma drop_all (k : nat) (a : string) :
  (String.length a <= k)%nat -> strings.drop k a = "".
Proof.
  revert a; induction k as [|k IH]; intros a Hk.
  - destruct a; [reflexivity | simpl in Hk; lia].
  - destruct a as [|c a]; [reflexivity|]. simpl in *. apply IH. lia.
Qed.

Lemma drop_drop (j k : nat) (a : string) :
  strings.drop j (strings.drop k a) = strings.drop (k + j) a.
Proof.
  revert a; induction k as [|k IH]; intros a; [reflexivity|].
  destruct a as [|c a]; simpl.
  - now destruct j.
  - apply IH.
Qed.

Lemma HasPrefix_app_l (s p rest : string) :
  strings.HasPrefix s p = true -> strings.HasPrefix (s ++ rest) p = true.
Proof.
  intros H. apply HasPrefix_iff in H as [r ->].
  apply HasPrefix_iff. exists (r ++ rest). apply app_assoc_string.
Qed.

Lemma HasPrefix_empty_string (p : string) :
  p <> "" -> strings.HasPrefix "" p = false.
Proof. destruct p; [contradiction | reflexivity]. Qed.

(** A marker that starts somewhere in a part of a string starts in the
    string. *)
Lemma occurs_at_inside (marker pre e post : string) (k : nat) :
  marker <> "" ->
  occurs_at marker e k ->
  occurs_at marker (pre ++ e ++ post) (String.length pre + k).
Proof.
  unfold occurs_at. intros Hm H.
  destruct (Nat.le_gt_cases k (String.length e)) as [Hk | Hk].
  - rewrite <- drop_drop, drop_app_exact, drop_app_le by exact Hk.
    now apply HasPrefix_app_l.
  - rewrite drop_all in H by lia.
    rewrite HasPrefix_empty_string in H by exact Hm. discriminate.
Qed.

(** The marker starts nowhere in a truncated line. *)
Lemma truncate_at_free (marker line : string) (k : nat) :
  marker <> "" -> ~ occurs_at marker (truncate_at marker line) k.
Proof.
  intros Hm H.
  destruct (truncate_at_first marker line) as (H1 & H2 & _).
  cbv zeta in *. set (kept := truncate_at marker line) in *.
  destruct (Nat.lt_ge_cases k (String.length kept)) as [Hk | Hk].
  - apply (H2 k Hk). unfold occurs_at in *.
    rewrite <- (take_drop_id (String.length kept) line), H1.
    rewrite drop_app_le by lia. now apply HasPrefix_app_l.
  - unfold occurs_at in H. rewrite drop_all in H by exact Hk.
    rewrite HasPrefix_empty_string in H by exact Hm. discriminate.
Qed.

Lemma trimWhile_stop (width : string -> nat) (fuel : nat) (s : string) :
  width s = O -> strings.trimWhile width fuel s = s.
Proof. intros H. destruct fuel; simpl; [reflexivity | now rewrite H]. Qed.

(** A string that neither starts nor ends with white space is left as it
    is. *)
Lemma TrimSpace_fixed (e : string) :
  strings.leadingSpace e = O ->
  strings.trailingSpace (strings.rev e) = O ->
  strings.TrimSpace e = e.
Proof.
  intros H1 H2.
  unfold strings.TrimSpace, strings.TrimLeftSpace, strings.TrimRightSpace.
  rewrite (trimWhile_stop _ _ e H1), (trimWhile_stop _ _ _ H2).
  apply rev_involutive_string.
Qed.

Lemma TrimSpace_idempotent (s : string) :
  strings.TrimSpace (strings.TrimSpace s) = strings.TrimSpace s.
Proof.
  destruct (TrimSpace_trimmed s) as (pre & post & _ & _ & _ & H1 & H2).
  now apply TrimSpace_fixed.
Qed.

Lemma getLines_trimmed (input commentMarker line : string) :
  In line (getLines input commentMarker) -> strings.TrimSpace line = line.
Proof.
  intros Hin. rewrite getLines_map in Hin.
  apply in_map_iff in Hin as (raw & <- & _). apply TrimSpace_idempotent.
Qed.

(** X2: a line returned by [getLines], for a non-empty comment marker, holds
    no line feed and no comment marker, and is trimmed already. *)
Theorem X2_getLines_lines_are_clean (input commentMarker line : string) :
  commentMarker <> "" ->
  In line (getLines input commentMarker) ->
  count_LF line = O
  /\ (forall k, ~ occurs_at commentMarker line k)
  /\ strings.TrimSpace line = line.
Proof.
  intros Hm Hin. rewrite getLines_map in Hin.
  apply in_map_iff in Hin as (raw & <- & Hraw).
  destruct (TrimSpace_trimmed (truncate_at commentMarker raw))
    as (pre & post & E & _ & _ & H1 & H2).
  set (e := strings.TrimSpace (truncate_at commentMarker raw)) in *.
  split; [|split].
  - pose proof (lines_of_no_LF input raw Hraw) as Hraw0.
    destruct (truncate_at_first commentMarker raw) as (T1 & _ & _).
    cbv zeta in T1.
    rewrite <- (take_drop_id (String.length (truncate_at commentMarker raw))
                  raw), T1, E, !count_LF_app in Hraw0.
    lia.
  - intros k Hk.
    apply (truncate_at_free commentMarker raw (String.length pre + k) Hm).
    rewrite E. now apply occurs_at_inside.
  - now apply TrimSpace_fixed.
Qed.

(** X2, on the scenario file. *)
Lemma X2_getLines_lines_are_clean_witness :
  count_LF "nameserver 8.8.8.8" = O
  /\ (forall k, ~ occurs_at commentMark "nameserver 8.8.8.8" k)
  /\ strings.TrimSpace "nameserver 8.8.8.8" = "nameserver 8.8.8.8".
Proof.
  apply (X2_getLines_lines_are_clean
           ("nameserver 8.8.8.8 # dns" ++ nl ++ "# end") commentMark
           "nameserver 8.8.8.8").
  - discriminate.
  - vm_compute. left. reflexivity.
Defined.

(** ** Comments *)

Lemma truncate_at_char_app (m : ascii) (l c : string) :
  truncate_at (String m "") (l ++ String m c) = truncate_at (String m "") l.
Proof.
  induction l as [|x l IH].
  - cbn [append truncate_at]. rewrite HasPrefix_char, Ascii.eqb_refl.
    reflexivity.
  - cbn [append truncate_at]. rewrite !HasPrefix_char, IH. reflexivity.
Qed.

(** X3: a comment appended to the last line of a text, up to the end of the
    text, changes nothing in what [getLines] returns. *)
Theorem X3_getLines_ignores_trailing_comment (text comment : string) :
  count_LF comment = O ->
  getLines (text ++ commentMark ++ comment) commentMark
  = getLines text commentMark.
Proof.
  intros Hc. rewrite !getLines_map.
  rewrite lines_of_app_last
    by (unfold commentMark; simpl; rewrite Hc; reflexivity).
  rewrite (app_removelast_last "" (lines_of_not_nil text)) at 3.
  rewrite !map_app. f_equal. cbn [map]. f_equal. f_equal.
  apply truncate_at_char_app.
Qed.

(** X3, with a comment after a nameserver entry. *)
Lemma X3_getLines_ignores_trailing_comment_witness :
  getLines ("nameserver 8.8.8.8 " ++ commentMark ++ " primary") commentMark
  = getLines "nameserver 8.8.8.8 " commentMark.
Proof.
  apply (X3_getLines_ignores_trailing_comment
           "nameserver 8.8.8.8 " " primary").
  reflexivity.
Defined.

(** ** Options *)

Lemma HasPrefix_option_not_nameserver (l : string) :
  strings.HasPrefix l optionKey = true ->
  strings.TrimPrefix l nameserverKey = l.
Proof.
  intros H. apply HasPrefix_iff in H as [rest ->].
  apply option_line_keeps_keyword.
Qed.

Lemma getOptions_loop_filter (lines : list string) :
  (forall l, In l lines -> strings.TrimSpace l = l) ->
  forall acc,
    fold_left getOptions_body lines acc
    = (acc ++ option_lines lines)%list.
Proof.
  unfold option_lines.
  induction lines as [|l lines IH]; intros Hl acc; simpl.
  - now rewrite app_nil_r.
  - rewrite IH by (intros l' Hl'; apply Hl; now right).
    unfold getOptions_body.
    destruct (strings.HasPrefix l optionKey) eqn:E; simpl; [|reflexivity].
    rewrite HasPrefix_option_not_nameserver by exact E.
    rewrite Hl by (now left). now rewrite <- app_assoc.
Qed.

Lemma getOptions_option_lines (resolvConf : string) :
  getOptions resolvConf = option_lines (getLines resolvConf commentMark).
Proof.
  unfold getOptions. rewrite getOptions_loop_filter; [reflexivity|].
  intros l Hl. now apply (getLines_trimmed resolvConf commentMark).
Qed.

(** X4: [getOptions] returns every line (comment stripped, trimmed) that
    begins with [option], all of them and in file order, each one whole:
    the keyword stays in the value. *)
Theorem X4_getOptions_is_the_option_lines (resolvConf : string) :
  getOptions resolvConf = option_lines (getLines resolvConf commentMark)
  /\ (forall o, In o (getOptions resolvConf) ->
                In o (getLines resolvConf commentMark)
                /\ exists rest, o = "option" ++ rest)
  /\ ((forall l, In l (getLines resolvConf commentMark) ->
                 strings.HasPrefix l optionKey = false) ->
      getOptions resolvConf = []).
Proof.
  pose proof (getOptions_option_lines resolvConf) as E.
  split; [exact E|]. split.
  - intros o Ho. rewrite E in Ho. unfold option_lines in Ho.
    apply filter_In in Ho as [Hin Hp]. split; [exact Hin|].
    now apply HasPrefix_iff in Hp.
  - rewrite E. unfold option_lines.
    generalize (getLines resolvConf commentMark) as lines.
    induction lines as [|l ls IH]; intros Hnone; [reflexivity|].
    simpl. rewrite Hnone by (now left).
    apply IH. intros l' Hl'. apply Hnone. now right.
Qed.

(** X5: the options of two texts joined by a line feed are the options of
    the first followed by the options of the second. *)
Theorem X5_getOptions_app_newline (a b : string) :
  getOptions (a ++ nl ++ b) = (getOptions a ++ getOptions b)%list.
Proof.
  rewrite !getOptions_option_lines, getLines_app_nl.
  apply filter_app.
Qed.

(** ** Nameservers *)

(** When no entry is invalid the loop appends the address of every entry. *)
Lemma getNameservers_loop_valid (lines : list string) :
  (forall l, In l lines -> ~ invalid_entry l) ->
  forall i acc,
    getNameservers_loop i lines acc
    = ((acc ++ entry_addresses lines)%list, None).
Proof.
  unfold entry_addresses.
  induction lines as [|l lines IH]; intros Hv i acc.
  - simpl. now rewrite app_nil_r.
  - assert (Hrest : forall l', In l' lines -> ~ invalid_entry l')
      by (intros l' Hl'; apply Hv; now right).
    cbn [flat_map].
    destruct (strings.HasPrefix l nameserverKey) eqn:El.
    + rewrite getNameservers_loop_entry by exact El.
      destruct (net.ParseIP (nameserver_value l)) as [ip|] eqn:Ep.
      * rewrite IH by exact Hrest. now rewrite <- app_assoc.
      * exfalso. apply (Hv l); [now left | now split].
    + rewrite getNameservers_loop_skip by exact El.
      now rewrite IH by exact Hrest.
Qed.

(** Lines are all valid, or there is a first invalid one. *)
Lemma valid_or_first_invalid (lines : list string) :
  (forall l, In l lines -> ~ invalid_entry l)
  \/ (exists pre bad rest,
         lines = (pre ++ bad :: rest)%list
         /\ (forall l, In l pre -> ~ invalid_entry l)
         /\ invalid_entry bad).
Proof.
  induction lines as [|l lines IH]; [left; intros l []|].
  destruct (invalid_entry_dec l) as [Hl | Hl].
  - right. exists [], l, lines. repeat split; [intros l' [] | apply Hl ..].
  - destruct IH as [IH | (pre & bad & rest & -> & Hpre & Hbad)].
    + left. intros l' [<- | Hl']; [exact Hl | now apply IH].
    + right. exists (l :: pre), bad, rest. repeat split; try apply Hbad.
      intros l' [<- | Hl']; [exact Hl | now apply Hpre].
Qed.

Lemma entry_addresses_app (l1 l2 : list string) :
  entry_addresses (l1 ++ l2)
  = (entry_addresses l1 ++ entry_addresses l2)%list.
Proof. apply flat_map_app. Qed.

Lemma length_entry_addresses (lines : list string) :
  (forall l, In l lines -> ~ invalid_entry l) ->
  List.length (entry_addresses lines)
  = List.length (nameserver_lines lines).
Proof.
  unfold entry_addresses, nameserver_lines.
  induction lines as [|l lines IH]; intros Hv; [reflexivity|].
  cbn [flat_map filter]. rewrite length_app.
  rewrite IH by (intros l' Hl'; apply Hv; now right).
  destruct (strings.HasPrefix l nameserverKey) eqn:El; [|reflexivity].
  destruct (net.ParseIP (nameserver_value l)) eqn:Ep; [reflexivity|].
  exfalso. apply (Hv l); [now left | now split].
Qed.

Lemma In_entry_addresses (lines : list string) (ip : net.IP) :
  In ip (entry_addresses lines) ->
  exists l, In l lines
            /\ strings.HasPrefix l nameserverKey = true
            /\ net.ParseIP (nameserver_value l) = Some ip.
Proof.
  unfold entry_addresses. intros H.
  apply in_flat_map in H as (l & Hl & H). exists l. split; [exact Hl|].
  destruct (strings.HasPrefix l nameserverKey); [|destruct H].
  destruct (net.ParseIP (nameserver_value l)) as [ip'|]; [|destruct H].
  destruct H as [<- | []]. now split.
Qed.

(** X6: when every nameserver entry of the text is an address literal,
    [getNameservers] returns no error and the addresses of all the entries,
    one for each nameserver line and in file order. *)
Theorem X6_getNameservers_collects_in_order (resolvConf : string) :
  (forall l, In l (getLines resolvConf commentMark) -> ~ invalid_entry l) ->
  getNameservers resolvConf
  = (entry_addresses (getLines resolvConf commentMark), None)
  /\ List.length (fst (getNameservers resolvConf))
     = List.length (nameserver_lines (getLines resolvConf commentMark))
  /\ (forall ip, In ip (fst (getNameservers resolvConf)) ->
                 exists l, In l (getLines resolvConf commentMark)
                           /\ strings.HasPrefix l nameserverKey = true
                           /\ net.ParseIP (nameserver_value l) = Some ip).
Proof.
  intros Hv.
  assert (E : getNameservers resolvConf
              = (entry_addresses (getLines resolvConf commentMark), None))
    by (unfold getNameservers; now rewrite getNameservers_loop_valid).
  rewrite E. cbn [fst]. split; [reflexivity|]. split.
  - now apply length_entry_addresses.
  - intros ip. apply In_entry_addresses.
Qed.

(** X6, on the scenario file. *)
Lemma X6_getNameservers_collects_in_order_witness :
  getNameservers scenario_file
  = (entry_addresses (getLines scenario_file commentMark), None)
  /\ List.length (fst (getNameservers scenario_file))
     = List.length (nameserver_lines (getLines scenario_file commentMark))
  /\ (forall ip, In ip (fst (getNameservers scenario_file)) ->
                 exists l, In l (getLines scenario_file commentMark)
                           /\ strings.HasPrefix l nameserverKey = true
                           /\ net.ParseIP (nameserver_value l) = Some ip).
Proof.
  apply (X6_getNameservers_collects_in_order scenario_file).
  assert (E : getLines scenario_file commentMark
              = ["nameserver 8.8.8.8"; ""; "option ndots:0"])
    by (vm_compute; reflexivity).
  rewrite E. intros l H [Hk Hp].
  repeat (destruct H as [<- | H];
          [vm_compute in Hk; vm_compute in Hp; discriminate|]).
  destruct H.
Defined.

(** The result of [getNameservers], in full: the addresses of all the
    entries, or the error of the first invalid one. *)
Lemma getNameservers_loop_result (lines : list string) (i : nat)
  (acc : list net.IP) :
  ((forall l, In l lines -> ~ invalid_entry l)
   /\ getNameservers_loop i lines acc
      = ((acc ++ entry_addresses lines)%list, None))
  \/ (exists pre bad rest,
         lines = (pre ++ bad :: rest)%list
         /\ (forall l, In l pre -> ~ invalid_entry l)
         /\ invalid_entry bad
         /\ getNameservers_loop i lines acc
            = ([], Some (parse_error (i + List.length pre)
                           (nameserver_value bad)))).
Proof.
  destruct (valid_or_first_invalid lines)
    as [Hv | (pre & bad & rest & -> & Hpre & Hbad)].
  - left. split; [exact Hv | now apply getNameservers_loop_valid].
  - right. exists pre, bad, rest. repeat split; try apply Hbad;
      [exact Hpre | now apply getNameservers_loop_first_invalid].
Qed.

(** The loop over two lists of lines in a row. *)
Lemma getNameservers_loop_app (l1 l2 : list string) (i : nat)
  (acc : list net.IP) :
  getNameservers_loop i (l1 ++ l2)%list acc
  = match getNameservers_loop i l1 acc with
    | (ns, None) => getNameservers_loop (i + List.length l1) l2 ns
    | (ns, Some e) => (ns, Some e)
    end.
Proof.
  revert i acc; induction l1 as [|l l1 IH]; intros i acc.
  - simpl. now rewrite Nat.add_0_r.
  - cbn [app getNameservers_loop].
    replace (i + List.length (l :: l1))%nat
      with (S i + List.length l1)%nat by (simpl; lia).
    destruct (negb (strings.HasPrefix l nameserverKey)); [apply IH|].
    destruct (net.ParseIP _); [apply IH | reflexivity].
Qed.

Lemma parse_error_inj (i j : nat) (v u : string) :
  parse_error i v = parse_error j u -> i = j /\ v = u.
Proof.
  unfold parse_error. intros [= H ->]. split; [lia | reflexivity].
Qed.

(** X7: nameservers of two texts joined by a line feed.  An error in the
    first text is the error of the whole; otherwise the addresses of the
    second text follow those of the first, and an error in the second text
    is reported with its line index moved by the number of lines of the
    first. *)
Theorem X7_getNameservers_app_newline (a b : string) :
  (forall ns e, getNameservers a = (ns, Some e) ->
                getNameservers (a ++ nl ++ b) = ([], Some e))
  /\ (forall ns1 ns2,
         getNameservers a = (ns1, None) ->
         getNameservers b = (ns2, None) ->
         getNameservers (a ++ nl ++ b) = ((ns1 ++ ns2)%list, None))
  /\ (forall ns1 ns2 j v,
         getNameservers a = (ns1, None) ->
         getNameservers b = (ns2, Some (parse_error j v)) ->
         getNameservers (a ++ nl ++ b)
         = ([], Some (parse_error (S (count_LF a) + j) v))).
Proof.
  assert (Hlen : List.length (getLines a commentMark) = S (count_LF a))
    by (rewrite getLines_map, length_map; apply length_lines_of).
  unfold getNameservers. rewrite getLines_app_nl.
  rewrite getNameservers_loop_app, Hlen. cbn [Nat.add].
  split; [|split].
  - intros ns e Ha. rewrite Ha.
    destruct (getNameservers_loop_result (getLines a commentMark) 0 [])
      as [[_ H] | (pre & bad & rest & _ & _ & _ & H)];
      rewrite H in Ha; [discriminate|].
    now injection Ha as <- <-.
  - intros ns1 ns2 Ha Hb. rewrite Ha.
    destruct (getNameservers_loop_result (getLines b commentMark) 0 [])
      as [[Hv H] | (pre & bad & rest & _ & _ & _ & H)];
      rewrite H in Hb; [|discriminate].
    injection Hb as <-. simpl app.
    now rewrite getNameservers_loop_valid.
  - intros ns1 ns2 j v Ha Hb. rewrite Ha.
    destruct (getNameservers_loop_result (getLines b commentMark) 0 [])
      as [[Hv H] | (pre & bad & rest & E & Hpre & Hbad & H)];
      rewrite H in Hb; [discriminate|].
    cbn [Nat.add] in Hb.
    assert (Hpe : parse_error (List.length pre) (nameserver_value bad)
                  = parse_error j v) by congruence.
    apply parse_error_inj in Hpe as [<- <-].
    rewrite E. now rewrite getNameservers_loop_first_invalid.
Qed.

(** ** Addresses are sixteen bytes *)

Lemma length_set (ip : list byte) (i : nat) (b : byte) :
  List.length (net.set ip i b) = List.length ip.
Proof.
  revert i; induction ip as [|h t IH]; intros i; [reflexivity|].
  destruct i; simpl; [reflexivity | now rewrite IH].
Qed.

Lemma length_shiftRight (cnt j n : nat) (ip : list byte) :
  List.length (net.shiftRight cnt j n ip) = List.length ip.
Proof.
  revert j ip; induction cnt as [|cnt IH]; intros j ip; [reflexivity|].
  simpl. now rewrite IH, length_set.
Qed.

Lemma length_zeroFill (cnt j : nat) (ip : list byte) :
  List.length (net.zeroFill cnt j ip) = List.length ip.
Proof.
  revert j ip; induction cnt as [|cnt IH]; intros j ip; [reflexivity|].
  simpl. now rewrite IH, length_set.
Qed.

Lemma length_parseIPv4 (s : string) (ip : net.IP) :
  net.parseIPv4 s = Some ip -> List.length ip = 16%nat.
Proof.
  unfold net.parseIPv4.
  destruct (net.parseIPv4_loop net.IPv4len true s []) as [[p r]|];
    [|discriminate].
  destruct p as [|a [|b [|c [|d [|e p]]]]]; try discriminate.
  destruct r; [|discriminate]. now intros [= <-].
Qed.

(** One round of the loop of [parseIPv6] keeps the size of the array. *)
Lemma length_parseIPv6_body (st : net.v6state) :
  match net.parseIPv6_body st with
  | inl None => True
  | inl (Some st') | inr st' =>
      List.length (net.v6_ip st') = List.length (net.v6_ip st)
  end.
Proof.
  unfold net.parseIPv6_body.
  destruct (net.xtoi (net.v6_s st)) as [[n c] ok].
  repeat match goal with
         | |- context [if ?b then _ else _] => destruct b
         | |- context [match net.parseIPv4 ?x with _ => _ end] =>
             destruct (net.parseIPv4 x)
         end;
    cbn [net.v6_ip]; rewrite ?length_set; auto.
Qed.

Lemma length_parseIPv6_loop (fuel : nat) (st st' : net.v6state) :
  net.parseIPv6_loop fuel st = Some st' ->
  List.length (net.v6_ip st') = List.length (net.v6_ip st).
Proof.
  revert st; induction fuel as [|fuel IH]; intros st; simpl.
  - now intros [= <-].
  - destruct (net.v6_i st <? net.IPv6len)%nat; [|now intros [= <-]].
    pose proof (length_parseIPv6_body st) as Hb.
    destruct (net.parseIPv6_body st) as [[st1|]|st1].
    + now intros [= <-].
    + discriminate.
    + intros H. apply IH in H. congruence.
Qed.

Lemma length_parseIPv6 (s : string) (ip : net.IP) :
  net.parseIPv6 s = Some ip -> List.length ip = 16%nat.
Proof.
  unfold net.parseIPv6. cbv zeta.
  match goal with
  | |- (if ?c then _ else _) = _ -> _ => destruct c
  end; [now intros [= <-]|].
  match goal with
  | |- match net.parseIPv6_loop ?f ?st0 with _ => _ end = _ -> _ =>
      pose proof (length_parseIPv6_loop f st0) as Hl;
      destruct (net.parseIPv6_loop f st0) as [st|]; [|discriminate]
  end.
  specialize (Hl st eq_refl). cbn [net.v6_ip] in Hl.
  repeat match goal with
         | |- (if ?c then _ else _) = _ -> _ => destruct c
         end; try discriminate; intros [= <-];
    rewrite ?length_zeroFill, ?length_shiftRight; exact Hl.
Qed.

(** [ParseIP] returns the 16-byte form, for IPv4 addresses as well. *)
Lemma length_ParseIP (s : string) (ip : net.IP) :
  net.ParseIP s = Some ip -> List.length ip = 16%nat.
Proof.
  unfold net.ParseIP. destruct (net.family s) as [[|]|];
    [apply length_parseIPv4 | apply length_parseIPv6 | discriminate].
Qed.

(** X8: every nameserver of a snapshot is the address of a nameserver line
    of the file it was read from, in the 16-byte form; and a snapshot has
    as many nameservers as the file has nameserver lines. *)
Theorem X8_snapshot_nameservers_come_from_lines (path : string) (w : world)
  (f : File) :
  fst (GetSpecific path w) = (Some f, None) ->
  (forall ip,
      In ip (Nameservers f) ->
      List.length ip = 16%nat
      /\ exists l,
          In l (getLines (string_of_list_byte (Content f)) commentMark)
          /\ strings.HasPrefix l nameserverKey = true
          /\ net.ParseIP (nameserver_value l) = Some ip)
  /\ List.length (Nameservers f)
     = List.length
         (nameserver_lines
            (getLines (string_of_list_byte (Content f)) commentMark))
  /\ Options f
     = option_lines (getLines (string_of_list_byte (Content f)) commentMark).
Proof.
  rewrite GetSpecific_cases.
  destruct (files w path) as [resolv [e|]]; [discriminate|].
  destruct (getNameservers (string_of_list_byte resolv)) as [ns [e|]] eqn:En;
    [discriminate|].
  intros [= <-]. cbn [Nameservers Content Options].
  unfold getNameservers in En.
  destruct (getNameservers_loop_result
              (getLines (string_of_list_byte resolv) commentMark) 0 [])
    as [[Hv H] | (pre & bad & rest & _ & _ & _ & H)];
    rewrite H in En; [|discriminate].
  injection En as <-. simpl app. split; [|split].
  - intros ip Hip.
    destruct (In_entry_addresses _ ip Hip) as (l & Hl & Hk & Hp).
    split; [now apply (length_ParseIP (nameserver_value l))|].
    now exists l.
  - now apply length_entry_addresses.
  - apply getOptions_option_lines.
Qed.

(** X8, on the scenario file. *)
Lemma X8_snapshot_nameservers_come_from_lines_witness :
  (forall ip,
      In ip (Nameservers scenario_snapshot) ->
      List.length ip = 16%nat
      /\ exists l,
          In l (getLines (string_of_list_byte (Content scenario_snapshot))
                  commentMark)
          /\ strings.HasPrefix l nameserverKey = true
          /\ net.ParseIP (nameserver_value l) = Some ip)
  /\ List.length (Nameservers scenario_snapshot)
     = List.length
         (nameserver_lines
            (getLines (string_of_list_byte (Content scenario_snapshot))
               commentMark))
  /\ Options scenario_snapshot
     = option_lines
         (getLines (string_of_list_byte (Content scenario_snapshot))
            commentMark).
Proof.
  apply (X8_snapshot_nameservers_come_from_lines defaultPath
           (start (one_file defaultPath scenario_file)) scenario_snapshot).
  rewrite GetSpecific_cases. reflexivity.
Defined.

(** ** [Get]: the resolver, then the reader *)

(** What [GetSpecific] returns depends on the file at the path only. *)
Lemma GetSpecific_same_file (path : string) (w w' : world) :
  files w' path = files w path ->
  fst (GetSpecific path w') = fst (GetSpecific path w).
Proof. intros H. now rewrite !GetSpecific_cases, H. Qed.

Lemma Path_start (fs : FS) :
  Path (start fs)
  = (resolved fs,
     {| files := fs;
        filesRead := [defaultPath];
        detectSystemdResolvConfOnce := true;
        pathAfterSystemdDetection := resolved fs |}).
Proof. now rewrite Path_first. Qed.

(** X9: the first [Get] of a process probes the default file and then reads
    the file [Path] settled on; a later [Get] reads the memoized path only.
    When the default file names a single loopback nameserver and the
    alternate file cannot be read, [Get] fails with the error of the
    alternate file, although the default file is readable. *)
Theorem X9_Get_reads_the_resolved_file (fs : FS) :
  fst (Get (start fs)) = fst (GetSpecific (resolved fs) (start fs))
  /\ filesRead (snd (Get (start fs))) = [defaultPath; resolved fs]
  /\ (forall w,
         detectSystemdResolvConfOnce w = true ->
         fst (Get w) = fst (GetSpecific (pathAfterSystemdDetection w) w)
         /\ filesRead (snd (Get w))
            = (filesRead w ++ [pathAfterSystemdDetection w])%list)
  /\ (forall e,
         loopback_only (fs defaultPath) = true ->
         snd (fs alternatePath) = Some e ->
         fst (Get (start fs)) = (None, Some e)).
Proof.
  assert (E : fst (Get (start fs))
              = fst (GetSpecific (resolved fs) (start fs))).
  { unfold Get, bind. rewrite Path_start.
    now apply GetSpecific_same_file. }
  split; [exact E|]. split; [|split].
  - unfold Get, bind. rewrite Path_start, GetSpecific_world. reflexivity.
  - intros w Hd. unfold Get, bind. rewrite Path_later by exact Hd.
    split; [reflexivity | now rewrite GetSpecific_world].
  - intros e Hl He. rewrite E, GetSpecific_cases. unfold resolved.
    rewrite Hl. cbn [start files].
    destruct (fs alternatePath) as [resolv o]. cbn [snd] in He.
    now subst o.
Qed.

(** X10: the reader and the resolver do not disturb each other: a read
    leaves the memoized path and the flag as they are, so [Path] answers the
    same before and after it, and [Path] changes nothing a read returns. *)
Theorem X10_Path_and_GetSpecific_commute (path : string) (w : world) :
  fst (Path (snd (GetSpecific path w))) = fst (Path w)
  /\ fst (GetSpecific path (snd (Path w))) = fst (GetSpecific path w)
  /\ detectSystemdResolvConfOnce (snd (GetSpecific path w))
     = detectSystemdResolvConfOnce w
  /\ pathAfterSystemdDetection (snd (GetSpecific path w))
     = pathAfterSystemdDetection w.
Proof.
  rewrite GetSpecific_world.
  destruct (detectSystemdResolvConfOnce w) eqn:Hd.
  - rewrite !Path_later by (cbn; first [exact Hd | reflexivity]).
    now repeat split.
  - rewrite !Path_first by (cbn; first [exact Hd | reflexivity]). cbn [fst snd files
      pathAfterSystemdDetection detectSystemdResolvConfOnce].
    repeat split. now apply GetSpecific_same_file.
Qed.

(** ** The hash string and the digest *)

Lemma hex_decode_byte (v : byte) :
  byte_of_Z (16 * hex_value (hex.digit (Z.shiftr (byte_val v) 4))
             + hex_value (hex.digit (Z.land (byte_val v) 0x0f))) = v.
Proof. destruct v; vm_compute; reflexivity. Qed.

(** Decoding the hexadecimal string gives the bytes back. *)
Lemma hex_decode_EncodeToString (src : list byte) :
  hex_decode (hex.EncodeToString src) = src.
Proof.
  induction src as [|v src IH]; [reflexivity|].
  cbn [hex.EncodeToString hex_decode]. now rewrite hex_decode_byte, IH.
Qed.

(** X11: the hash string tells the digest: the hexadecimal part decodes to
    the SHA-256 of the bytes read, so two readers get the same string
    exactly when their bytes have the same digest; a reader that fails gets
    the empty string, which no successful reader gets. *)
Theorem X11_hashData_string_determines_digest (src1 src2 : io.Reader) :
  io.fails src1 = None ->
  io.fails src2 = None ->
  hex_decode (strings.drop 7 (fst (hashData src1)))
  = sha256.Sum256 (io.yields src1)
  /\ (fst (hashData src1) = fst (hashData src2)
      <-> sha256.Sum256 (io.yields src1) = sha256.Sum256 (io.yields src2))
  /\ fst (hashData src1) <> ""
  /\ (forall src e, io.fails src = Some e -> fst (hashData src) = "").
Proof.
  intros H1 H2. unfold hashData, io.Copy. rewrite H1, H2. cbn [fst].
  assert (D : forall b,
             hex_decode
               (strings.drop 7
                  ("sha256:" ++ hex.EncodeToString (sha256.Sum256 b)))
             = sha256.Sum256 b).
  { intros b. change (strings.drop 7 ("sha256:" ++ ?x)) with x.
    apply hex_decode_EncodeToString. }
  split; [apply D|]. split; [split|split].
  - intros E. rewrite <- (D (io.yields src1)), <- (D (io.yields src2)).
    now rewrite E.
  - intros E. now rewrite E.
  - discriminate.
  - intros src e He. now rewrite He.
Qed.

(** X11, on two readers of bytes in memory. *)
Lemma X11_hashData_string_determines_digest_witness :
  hex_decode (strings.drop 7 (fst (hashData (bytes.NewReader [x61]))))
  = sha256.Sum256 (io.yields (bytes.NewReader [x61]))
  /\ (fst (hashData (bytes.NewReader [x61]))
      = fst (hashData (bytes.NewReader [x62]))
      <-> sha256.Sum256 (io.yields (bytes.NewReader [x61]))
          = sha256.Sum256 (io.yields (bytes.NewReader [x62])))
  /\ fst (hashData (bytes.NewReader [x61])) <> ""
  /\ (forall src e, io.fails src = Some e -> fst (hashData src) = "").
Proof.
  apply (X11_hashData_string_determines_digest
           (bytes.NewReader [x61]) (bytes.NewReader [x62]));
    reflexivity.
Defined.

(** ** Which nameservers switch the path *)

Lemma IsLoopback_IPv4 (a b c d : byte) :
  net.IsLoopback (net.IPv4 a b c d) = (byte_val a =? 127).
Proof. reflexivity. Qed.

Lemma byte_val_127 (a : byte) : byte_val a = 127 <-> a = x7f.
Proof.
  split; [|now intros ->].
  intros H. now apply byte_val_inj.
Qed.

(** X12: when the default file has one nameserver and it is an IPv4
    address a.b.c.d, the first [Path] returns the alternate path exactly
    when a is 127, whatever b, c and d are; the IPv6 loopback ::1 gives the
    alternate path too. *)
Theorem X12_Path_switches_on_any_loopback (fs : FS) (content : list byte)
  (ip : net.IP) :
  fs defaultPath = (content, None) ->
  getNameservers (string_of_list_byte content) = ([ip], None) ->
  (forall a b c d,
      ip = net.IPv4 a b c d ->
      (fst (Path (start fs)) = alternatePath <-> a = x7f))
  /\ (ip = net.IPv6loopback -> fst (Path (start fs)) = alternatePath).
Proof.
  intros Hf Hn. rewrite Path_start. cbn [fst].
  unfold resolved, loopback_only. rewrite Hf, Hn. split.
  - intros a b c d ->. rewrite IsLoopback_IPv4, <- byte_val_127.
    destruct (Z.eqb_spec (byte_val a) 127) as [E | E].
    + now split.
    + split; [discriminate | contradiction].
  - now intros ->.
Qed.

(** X12, on a file that names 127.0.0.1. *)
Lemma X12_Path_switches_on_any_loopback_witness :
  (forall a b c d,
      net.IPv4 x7f x00 x00 x01 = net.IPv4 a b c d ->
      (fst (Path (start (one_file defaultPath "nameserver 127.0.0.1")))
       = alternatePath <-> a = x7f))
  /\ (net.IPv4 x7f x00 x00 x01 = net.IPv6loopback ->
      fst (Path (start (one_file defaultPath "nameserver 127.0.0.1")))
      = alternatePath).
Proof.
  apply (X12_Path_switches_on_any_loopback
           (one_file defaultPath "nameserver 127.0.0.1")
           (list_byte_of_string "nameserver 127.0.0.1")
           (net.IPv4 x7f x00 x00 x01)).
  - reflexivity.
  - vm_compute. reflexivity.
Defined.

(** ** Concurrent callers: no deadlock, and the sequential answer *)

(** A goroutine moves at every step, unless it waits for a mutex that is
    held. *)
Lemma stepThread_moves (s : Concurrent.state) (t : nat) :
  Concurrent.st_pcs s t <> Concurrent.AtLock
  \/ Concurrent.st_mutex s = None ->
  Concurrent.st_pcs (Concurrent.stepThread t s) t <> Concurrent.st_pcs s t.
Proof.
  intros H. unfold Concurrent.stepThread, ioutil.ReadFile.
  destruct (Concurrent.st_pcs s t) eqn:E.
  3: { destruct H as [H | H]; [contradiction|]. rewrite H.
       cbn [Concurrent.st_pcs]. rewrite upd_same. discriminate. }
  all: try destruct (detectSystemdResolvConfOnce (Concurrent.st_world s));
    cbn [Concurrent.st_pcs]; rewrite upd_same; discriminate.
Qed.

Lemma holder_move (s : Concurrent.state) (t : nat) (p : Concurrent.pc)
  (w : world) (ret : list string) :
  holder_inside s ->
  (Concurrent.st_mutex s = Some t -> Concurrent.critical p = true) ->
  holder_inside
    {| Concurrent.st_world := w;
       Concurrent.st_mutex := Concurrent.st_mutex s;
       Concurrent.st_pcs := Concurrent.upd (Concurrent.st_pcs s) t p;
       Concurrent.st_returned := ret |}.
Proof.
  intros Hh Hp h Hm. cbn [Concurrent.st_mutex Concurrent.st_pcs] in *.
  moved h t; [now apply Hp | now apply Hh].
Qed.

Lemma holder_inside_step (s : Concurrent.state) (e : Concurrent.event) :
  holder_inside s -> holder_inside (Concurrent.step s e).
Proof.
  intros Hh. destruct e as [t | fs]; [|exact Hh].
  unfold Concurrent.step, Concurrent.stepThread, ioutil.ReadFile.
  destruct (Concurrent.st_pcs s t) eqn:Et.
  3: { destruct (Concurrent.st_mutex s) as [h0|] eqn:Emu; [exact Hh|].
       intros h Hm. cbn [Concurrent.st_mutex Concurrent.st_pcs] in *.
       injection Hm as <-. now rewrite upd_same. }
  7: { intros h Hm. discriminate. }
  all: try destruct (detectSystemdResolvConfOnce (Concurrent.st_world s));
    apply holder_move; try exact Hh;
    intros Hm; first [reflexivity
                     | specialize (Hh t Hm); rewrite Et in Hh; discriminate].
Qed.

Lemma holder_inside_run (schedule : list Concurrent.event)
  (s : Concurrent.state) :
  holder_inside s -> holder_inside (Concurrent.run s schedule).
Proof.
  revert s; induction schedule as [|e schedule IH]; intros s Hh;
    [exact Hh|].
  apply IH. now apply holder_inside_step.
Qed.

(** X13: under every schedule, at most one goroutine is between [Lock] and
    [Unlock]; a goroutine whose step changes nothing is waiting at [Lock]
    for a mutex held by another goroutine, and that one can move: the
    callers of [Path] never deadlock. *)
Theorem X13_Path_callers_never_deadlock (fs : FS)
  (schedule : list Concurrent.event) :
  let s := Concurrent.run (Concurrent.initial fs) schedule in
  (forall t u,
      Concurrent.critical (Concurrent.st_pcs s t) = true ->
      Concurrent.critical (Concurrent.st_pcs s u) = true -> t = u)
  /\ (forall t,
         Concurrent.stepThread t s = s ->
         Concurrent.st_pcs s t = Concurrent.AtLock
         /\ exists h,
             Concurrent.st_mutex s = Some h
             /\ h <> t
             /\ Concurrent.stepThread h s <> s).
Proof.
  cbv zeta.
  pose proof (Inv_run schedule _ (Inv_initial fs)) as I.
  assert (Hh : holder_inside
                 (Concurrent.run (Concurrent.initial fs) schedule)).
  { apply holder_inside_run. intros h H. discriminate. }
  set (s := Concurrent.run (Concurrent.initial fs) schedule) in *.
  split.
  - intros t u Ht Hu. symmetry. now apply (critical_unique s).
  - intros t Hstuck.
    assert (Hsame : Concurrent.st_pcs (Concurrent.stepThread t s) t
                    = Concurrent.st_pcs s t) by now rewrite Hstuck.
    destruct (Concurrent.st_mutex s) as [h|] eqn:Emu.
    + assert (Hlock : Concurrent.st_pcs s t = Concurrent.AtLock).
      { destruct (Concurrent.st_pcs s t) eqn:Et; try reflexivity;
          exfalso; apply (stepThread_moves s t);
          try (left; rewrite Et; discriminate);
          rewrite Et; exact Hsame. }
      split; [exact Hlock|]. exists h. split; [reflexivity|].
      pose proof (Hh h Emu) as Hc. split.
      * intros ->. rewrite Hlock in Hc. discriminate.
      * intros Hstuck'.
        apply (stepThread_moves s h);
          [left; intros E; rewrite E in Hc; discriminate|].
        now rewrite Hstuck'.
    + exfalso. apply (stepThread_moves s t); [now right | exact Hsame].
Qed.

Lemma agrees_initial (fs : FS) : agrees fs (Concurrent.initial fs).
Proof.
  constructor.
  - reflexivity.
  - intros t r H. discriminate.
  - intros _ _. reflexivity.
  - intros [H | [t H]]; discriminate.
Qed.

(** Opens [agrees] for the state after a step. *)
Ltac start_agrees :=
  constructor;
  unfold Concurrent.done, Concurrent.path in *;
  cbn [Concurrent.st_world Concurrent.st_mutex Concurrent.st_pcs
         Concurrent.st_returned Concurrent.setDone files filesRead
         detectSystemdResolvConfOnce pathAfterSystemdDetection].

(** A step that only moves goroutine [t], between positions that are
    neither [AtParse] nor [AtStore]. *)
Lemma agrees_move (fs : FS) (s : Concurrent.state) (t : nat)
  (p : Concurrent.pc) :
  agrees fs s ->
  Concurrent.computed p = false ->
  Concurrent.computed (Concurrent.st_pcs s t) = false ->
  agrees fs
    {| Concurrent.st_world := Concurrent.st_world s;
       Concurrent.st_mutex := Concurrent.st_mutex s;
       Concurrent.st_pcs := Concurrent.upd (Concurrent.st_pcs s) t p;
       Concurrent.st_returned := Concurrent.st_returned s |}.
Proof.
  intros [Ha Hb Hc Hd] Hp Ht. start_agrees.
  - exact Ha.
  - intros u r Hu. moved u t; [subst p; discriminate | eauto].
  - intros Hno Hdn. apply Hc; [|exact Hdn]. intros u Hu.
    apply (Hno u). moved u t; [|exact Hu].
    rewrite Hu in Ht. discriminate.
  - intros [Hdn | [u Hu]]; apply Hd; [now left|]. right. exists u.
    moved u t; [subst p; discriminate | exact Hu].
Qed.

Lemma agrees_step (fs : FS) (s : Concurrent.state) (t : nat) :
  Concurrent.Inv s -> agrees fs s ->
  agrees fs (Concurrent.step s (Concurrent.Run t)).
Proof.
  intros I A. pose proof A as [Ha Hb Hc Hd].
  pose proof I as [Hm Hr Hp Hret Hf Hrd].
  unfold Concurrent.step, Concurrent.stepThread.
  destruct (Concurrent.st_pcs s t) eqn:Et.
  - apply agrees_move; auto. now rewrite Et.
  - destruct (detectSystemdResolvConfOnce (Concurrent.st_world s));
      apply agrees_move; auto; now rewrite Et.
  - destruct (Concurrent.st_mutex s); [exact A|].
    start_agrees.
    + exact Ha.
    + intros u r Hu. moved u t; [discriminate | eauto].
    + intros Hno Hdn. apply Hc; [|exact Hdn]. intros u Hu.
      apply (Hno u). moved u t; [|exact Hu]. rewrite Et in Hu. discriminate.
    + intros [Hdn | [u Hu]]; apply Hd; [now left|]. right. exists u.
      moved u t; [discriminate | exact Hu].
  - destruct (detectSystemdResolvConfOnce (Concurrent.st_world s));
      apply agrees_move; auto; now rewrite Et.
  - (* AtRead *)
    unfold ioutil.ReadFile. start_agrees.
    + exact Ha.
    + intros u r Hu. moved u t; [|eauto].
      injection Hu as <-. now rewrite Ha.
    + intros Hno Hdn. apply Hc; [|exact Hdn]. intros u Hu.
      apply (Hno u). moved u t; [|exact Hu]. rewrite Et in Hu. discriminate.
    + intros [Hdn | [u Hu]]; apply Hd; [now left|]. right. exists u.
      moved u t; [discriminate | exact Hu].
  - (* AtParse *)
    assert (Hdn : Concurrent.done s = false)
      by (apply (Hr t); now rewrite Et).
    assert (Hno : forall u, Concurrent.st_pcs s u <> Concurrent.AtStore).
    { intros u Hu.
      assert (u = t) as -> by
          (apply (critical_unique s); auto; [now rewrite Et | now rewrite Hu]).
      rewrite Et in Hu. discriminate. }
    rewrite detect_rest_world. start_agrees.
    + exact Ha.
    + intros u r' Hu. moved u t; [discriminate | eauto].
    + intros Hno' _. exfalso. apply (Hno' t). now rewrite upd_same.
    + intros _. rewrite (Hb t r Et). unfold resolved.
      destruct (loopback_only (fs defaultPath)); [reflexivity|].
      now apply Hc.
  - (* AtStore *)
    start_agrees.
    + exact Ha.
    + intros u r Hu. moved u t; [discriminate | eauto].
    + discriminate.
    + intros _. apply Hd. right. now exists t.
  - (* AtUnlock *)
    start_agrees.
    + exact Ha.
    + intros u r Hu. moved u t; [discriminate | eauto].
    + intros Hno Hdn. apply Hc; [|exact Hdn]. intros u Hu.
      apply (Hno u). moved u t; [|exact Hu]. rewrite Et in Hu. discriminate.
    + intros [Hdn | [u Hu]]; apply Hd; [now left|]. right. exists u.
      moved u t; [discriminate | exact Hu].
  - (* AtReturn *)
    start_agrees.
    + exact Ha.
    + intros u r Hu. moved u t; [discriminate | eauto].
    + intros Hno Hdn. apply Hc; [|exact Hdn]. intros u Hu.
      apply (Hno u). moved u t; [|exact Hu]. rewrite Et in Hu. discriminate.
    + intros [Hdn | [u Hu]]; apply Hd; [now left|]. right. exists u.
      moved u t; [discriminate | exact Hu].
Qed.

Lemma agrees_run (fs : FS) (ts : list nat) (s : Concurrent.state) :
  Concurrent.Inv s -> agrees fs s ->
  Concurrent.Inv (Concurrent.run s (map Concurrent.Run ts))
  /\ agrees fs (Concurrent.run s (map Concurrent.Run ts)).
Proof.
  revert s; induction ts as [|t ts IH]; intros s I A; [now split|].
  cbn [map]. rewrite run_cons.
  apply IH; [now apply Inv_step | now apply agrees_step].
Qed.

(** X14: while the files do not change, every call of [Path] made by
    concurrent goroutines, under every schedule, returns what a single
    sequential call returns on these files. *)
Theorem X14_concurrent_Path_returns_sequential_answer (fs : FS)
  (ts : list nat) (p : string) :
  In p (Concurrent.st_returned
          (Concurrent.run (Concurrent.initial fs)
             (map Concurrent.Run ts))) ->
  p = fst (Path (start fs)).
Proof.
  intros Hp.
  destruct (agrees_run fs ts _ (Inv_initial fs) (agrees_initial fs))
    as [I A].
  destruct (Concurrent.inv_ret _ I p Hp) as [Hd ->].
  rewrite Path_start. cbn [fst].
  apply (agr_after fs _ A). now left.
Qed.

(** X14, with two goroutines that interleave on a file naming 127.0.0.53:
    the second one to ask gets the alternate path, as the first. *)
Lemma X14_concurrent_Path_returns_sequential_answer_witness :
  alternatePath
  = fst (Path (start (one_file defaultPath "nameserver 127.0.0.53"))).
Proof.
  apply (X14_concurrent_Path_returns_sequential_answer
           (one_file defaultPath "nameserver 127.0.0.53")
           [0; 1; 0; 1; 0; 0; 0; 0; 0; 0; 0; 1; 1]%nat alternatePath).
  vm_compute. left. reflexivity.
Defined.

(** X15: [getNameservers] returns addresses and no error, or an error and
    no address, never both: either no entry of the text is invalid and the
    result is the addresses of all entries, or the result is nil with the
    error of an invalid entry of the text, at its line index. *)
Theorem X15_getNameservers_addresses_or_error (resolvConf : string) :
  let lines := getLines resolvConf commentMark in
  ((forall l, In l lines -> ~ invalid_entry l)
   /\ getNameservers resolvConf = (entry_addresses lines, None))
  \/ (exists i l,
         nth_error lines i = Some l
         /\ invalid_entry l
         /\ getNameservers resolvConf
            = ([], Some (parse_error i (nameserver_value l)))).
Proof.
  cbv zeta. unfold getNameservers.
  destruct (getNameservers_loop_result
              (getLines resolvConf commentMark) 0 [])
    as [[Hv H] | (pre & bad & rest & E & _ & Hbad & H)].
  - left. split; [exact Hv | exact H].
  - right. exists (List.length pre), bad. split; [|split].
    + rewrite E, nth_error_app2 by lia. now rewrite Nat.sub_diag.
    + exact Hbad.
    + exact H.
Qed.
